(** * Colobot: Linux system utilities (src/common/system/system_linux.cpp)

    A shallow embedding of [CSystemUtilsLinux] and the properties of its
    time-stamp arithmetic, dialog, environment and launcher operations. *)

From Stdlib Require Import ZArith NArith Lia Bool List String Ascii.
From Stdlib Require Import Floats.SpecFloat.
Import ListNotations.
Local Open Scope Z_scope.

(** ** Machine integers

    On Linux/LP64 [time_t], [long] (the two fields of [struct timespec]) and
    [long long] are all 64-bit two's-complement integers.  Arithmetic is
    modelled on [Z] with the wrap-around written out. *)
Module Int64.

Definition min_signed : Z := - 2 ^ 63.
Definition max_signed : Z := 2 ^ 63 - 1.

Definition in_range (z : Z) : Prop := min_signed <= z <= max_signed.

Definition wrap (z : Z) : Z := (z + 2 ^ 63) mod 2 ^ 64 - 2 ^ 63.

Definition add (x y : Z) : Z := wrap (x + y).
Definition sub (x y : Z) : Z := wrap (x - y).
Definition mul (x y : Z) : Z := wrap (x * y).

(** C++ [/] and [%] truncate toward zero. *)
Definition quot (x y : Z) : Z := wrap (Z.quot x y).
Definition rem (x y : Z) : Z := Z.rem x y.

End Int64.

(** ** Single-precision floats

    [float] is IEEE-754 binary32: 24 bits of precision, infinities at
    exponent 128.  The operations are the ones of the standard library's
    executable specification of IEEE arithmetic, instantiated at that format;
    on x86-64 the compiler evaluates [float] expressions in that format
    (SSE, round to nearest, ties to even). *)
Module Float32.

Definition prec : Z := 24.
Definition emax : Z := 128.

Definition float : Type := spec_float.

(** Conversion [long long -> float], round to nearest, ties to even. *)
Definition of_int64 (n : Z) : float := binary_normalize prec emax n 0 false.

Definition mul (x y : float) : float := SFmul prec emax x y.

(** Conversion [float -> long long]: the fractional part is discarded.
    A NaN, an infinity or a value outside the range of [long long] has no
    defined result in C++; x86-64 ([cvttss2si]) yields the most negative
    integer, which is what is modelled here. *)
Definition to_int64 (x : float) : Z :=
  match x with
  | S754_zero _ => 0
  | S754_finite s m e =>
      let z := cond_Zopp s (Z.shiftl (Zpos m) e) in
      if (Int64.min_signed <=? z) && (z <=? Int64.max_signed)
      then z else Int64.min_signed
  | S754_infinity _ | S754_nan => Int64.min_signed
  end.

Definition zero : float := S754_zero false.
Definition one : float := S754_finite false 8388608 (-23).
Definition half : float := S754_finite false 8388608 (-24).
Definition minus_one : float := S754_finite true 8388608 (-23).
Definition three_halves : float := S754_finite false 12582912 (-23).

(** The real number a finite float denotes is [signif * 2 ^ expo]. *)
Definition finite (x : float) : bool :=
  match x with
  | S754_zero _ | S754_finite _ _ _ => true
  | S754_infinity _ | S754_nan => false
  end.

Definition signif (x : float) : Z :=
  match x with
  | S754_finite s m _ => cond_Zopp s (Zpos m)
  | _ => 0
  end.

Definition expo (x : float) : Z :=
  match x with
  | S754_finite _ _ e => e
  | _ => 0
  end.

End Float32.

(** ** Time stamps *)

(** [struct timespec] of <time.h>. *)
Record timespec : Type := mk_timespec { tv_sec : Z; tv_nsec : Z }.

(** Modelled from the spec: [SystemTimeStamp] is declared in
    common/system/system_linux.h, not in this file; the specification gives
    it seconds and nanoseconds, and the code reaches them through its one
    field [clockTime]. *)
Record SystemTimeStamp : Type := mk_stamp { clockTime : timespec }.

Definition stamp (sec nsec : Z) : SystemTimeStamp :=
  mk_stamp (mk_timespec sec nsec).

Definition NSEC_PER_SEC : Z := 1000000000.

(** [TimeStampExactDiff(before, after)], lines 104-108. *)
Definition TimeStampExactDiff (before after : SystemTimeStamp) : Z :=
  Int64.add
    (Int64.sub (tv_nsec (clockTime after)) (tv_nsec (clockTime before)))
    (Int64.mul (Int64.sub (tv_sec (clockTime after)) (tv_sec (clockTime before)))
               1000000000).

(** [delta *= i]: [delta] is converted to [float], multiplied in single
    precision, and the product converted back ("truncates"). *)
Definition scale (delta : Z) (i : Float32.float) : Z :=
  Float32.to_int64 (Float32.mul (Float32.of_int64 delta) i).

(** [InterpolateTimeStamp(dst, a, b, i)], lines 86-97.  The function writes
    its result through [dst]; the model returns the value written.  [delta] is
    computed before the first store, and each field of [a] is read before the
    same field of [dst] is stored, so the result is the same when [dst]
    aliases [a] or [b]. *)
Definition InterpolateTimeStamp (a b : SystemTimeStamp) (i : Float32.float)
  : SystemTimeStamp :=
  let delta := TimeStampExactDiff a b in
  let delta := scale delta i in
  let sec := Int64.add (tv_sec (clockTime a)) (Int64.quot delta 1000000000) in
  let nsec := Int64.add (tv_nsec (clockTime a)) (Int64.rem delta 1000000000) in
  if 1000000000 <=? nsec
  then stamp (Int64.add sec 1) (Int64.sub nsec 1000000000)
  else stamp sec nsec.

(** The instant a time stamp denotes, in nanoseconds. *)
Definition nanoseconds (t : SystemTimeStamp) : Z :=
  tv_sec (clockTime t) * NSEC_PER_SEC + tv_nsec (clockTime t).

(** A normalized [timespec], as [clock_gettime] produces them. *)
Definition normalized (t : SystemTimeStamp) : Prop :=
  0 <= tv_nsec (clockTime t) < NSEC_PER_SEC.

(** The fields hold 64-bit values. *)
Definition representable (t : SystemTimeStamp) : Prop :=
  Int64.in_range (tv_sec (clockTime t)) /\ Int64.in_range (tv_nsec (clockTime t)).

(** The interpolation delta as the specification words it: the exact product
    of the fraction and the difference, its fractional nanoseconds truncated
    toward zero.  To be compared with [scale], which is what the code
    computes. *)
Definition scale_spec (delta : Z) (i : Float32.float) : Z :=
  let m := Float32.signif i * delta in
  let e := Float32.expo i in
  if 0 <=? e then m * 2 ^ e else Z.quot m (2 ^ (- e)).

(** ** The host: environment, clocks, processes, log

    What the program sees of the operating system: the environment read by
    [getenv], the clocks read by [clock_gettime], the command lines handed
    to [system] and the calls of the logger, in order. *)

Inductive LogLevel : Type := Trace | Warn | Error.

Inductive LogArg : Type :=
| ArgString (s : string)
| ArgInt (n : Z).

(** One call of the logger: level, [printf] format and arguments. *)
Record LogEntry : Type := mk_entry {
  level : LogLevel;
  format : string;
  arguments : list LogArg }.

Record World : Type := mk_world {
  environ : string -> option string;
  clock_monotonic_raw : N;
  clock_realtime : Z;
  commands : list string;
  journal : list LogEntry }.

Inductive clockid_t : Type := CLOCK_REALTIME | CLOCK_MONOTONIC_RAW.

(** What happens on the host between two calls of the program: time passes
    (every clock advances), or the wall clock is set. *)
Inductive HostEvent : Type :=
| Elapse (ns : N)
| SetWallClock (now : Z).

Definition host_step (w : World) (ev : HostEvent) : World :=
  match ev with
  | Elapse ns =>
      mk_world (environ w) (clock_monotonic_raw w + ns)%N
               (clock_realtime w + Z.of_N ns) (commands w) (journal w)
  | SetWallClock now =>
      mk_world (environ w) (clock_monotonic_raw w) now (commands w) (journal w)
  end.

Definition host_run (w : World) (evs : list HostEvent) : World :=
  fold_left host_step evs w.

(** Time that passes during a list of host events. *)
Fixpoint elapsed (evs : list HostEvent) : N :=
  match evs with
  | [] => 0%N
  | Elapse ns :: rest => (ns + elapsed rest)%N
  | SetWallClock _ :: rest => elapsed rest
  end.

(** Computations that read and change the world. *)
Definition M (A : Type) : Type := World -> A * World.

Definition ret {A : Type} (x : A) : M A := fun w => (x, w).

Definition bind {A B : Type} (c : M A) (k : A -> M B) : M B :=
  fun w => let (x, w') := c w in k x w'.

Declare Scope sys_scope.
Delimit Scope sys_scope with sys.
Notation "x <- c ;; k" := (bind c (fun x => k))
  (at level 61, c at next level, right associativity) : sys_scope.
Notation "c ;;; k" := (bind c (fun _ => k))
  (at level 61, right associativity) : sys_scope.
Local Open Scope sys_scope.
Local Open Scope string_scope.

(** The double quote and the line feed, for the literals that hold them. *)
Definition dquote : string := String (ascii_of_nat 34) EmptyString.
Definition nl : string := String (ascii_of_nat 10) EmptyString.

(** [std::string::c_str()] as a C function reads it: up to the first NUL. *)
Fixpoint c_str (s : string) : string :=
  match s with
  | EmptyString => EmptyString
  | String c rest =>
      if Ascii.eqb c (ascii_of_nat 0) then EmptyString else String c (c_str rest)
  end.

Definition empty (s : string) : bool :=
  match s with
  | EmptyString => true
  | String _ _ => false
  end.

(** Whether a string holds a NUL character. *)
Fixpoint has_nul (s : string) : bool :=
  match s with
  | EmptyString => false
  | String c rest => Ascii.eqb c (ascii_of_nat 0) || has_nul rest
  end.

(** A C [int] used as a condition. *)
Definition truthy (n : Z) : bool := negb (n =? 0)%Z.

Definition getenv (name : string) : M (option string) :=
  fun w => (environ w name, w).

Definition log (l : LogLevel) (fmt : string) (args : list LogArg) : M unit :=
  fun w => (tt, mk_world (environ w) (clock_monotonic_raw w) (clock_realtime w)
                         (commands w) (journal w ++ [mk_entry l fmt args])).

Definition timespec_of_ns (n : Z) : timespec :=
  mk_timespec (n / NSEC_PER_SEC)%Z (n mod NSEC_PER_SEC)%Z.

Definition clock_gettime (id : clockid_t) : M timespec :=
  fun w => (match id with
            | CLOCK_REALTIME => timespec_of_ns (clock_realtime w)
            | CLOCK_MONOTONIC_RAW => timespec_of_ns (Z.of_N (clock_monotonic_raw w))
            end, w).

(** [GetCurrentTimeStamp(stamp)], lines 99-102. *)
Definition GetCurrentTimeStamp : M SystemTimeStamp :=
  t <- clock_gettime CLOCK_MONOTONIC_RAW ;;
  ret (mk_stamp t).

(** [GetEnvVar(name)], lines 142-151. *)
Definition GetEnvVar (name : string) : M string :=
  envVar <- getenv (c_str name) ;;
  match envVar with
  | Some value =>
      log Trace ("Detected environment variable %s = %s" ++ nl)
          [ArgString (c_str name); ArgString value] ;;;
      ret value
  | None => ret EmptyString
  end.

(** Modelled from the spec: the dialog kinds and results are declared in
    common/system/system.h, not in this file; these are the kinds and results
    the specification lists, under the enumerator names the code uses. *)
Inductive SystemDialogType : Type :=
| SDT_INFO | SDT_WARNING | SDT_ERROR | SDT_YES_NO | SDT_OK_CANCEL.

Inductive SystemDialogResult : Type :=
| SDR_OK | SDR_CANCEL | SDR_YES | SDR_NO.

(** Modelled from the spec: the class is declared in
    common/system/system_linux.h, not in this file; its state is the one flag
    that records whether the dialog helper is available. *)
Record CSystemUtilsLinux : Type := mk_utils { m_zenityAvailable : bool }.

Section Host.

(** The status [system] reports for a command line, given the commands run
    before it. *)
Variable wait_status : list string -> string -> Z.

(** [CSystemUtils::ConsoleSystemDialog], the console fallback of the base
    class (common/system/system.cpp). *)
Variable ConsoleSystemDialog :
  SystemDialogType -> string -> string -> M SystemDialogResult.

(** The preprocessor symbols tested by [GetSaveDir] and the path that
    [CSystemUtils::GetSaveDir] of the base class returns. *)
Variable PORTABLE_SAVES DEV_BUILD : bool.
Variable CSystemUtils_GetSaveDir : string.

Definition system (command : string) : M Z :=
  fun w => (wait_status (commands w) command,
            mk_world (environ w) (clock_monotonic_raw w) (clock_realtime w)
                     (commands w ++ [command]) (journal w)).

(** [Init()], lines 29-37. *)
Definition Init : M CSystemUtilsLinux :=
  code <- system (c_str "zenity --version 1> /dev/null 2> /dev/null") ;;
  if negb (code =? 0)%Z
  then log Warn ("Zenity not available, will fallback to console users dialogs." ++ nl) [] ;;;
       ret (mk_utils false)
  else ret (mk_utils true).

(** [SystemDialog(type, title, message)], lines 39-84. *)
Definition SystemDialog (this : CSystemUtilsLinux) (type : SystemDialogType)
  (title message : string) : M SystemDialogResult :=
  if negb (m_zenityAvailable this)
  then ConsoleSystemDialog type title message
  else
    let options :=
      match type with
      | SDT_INFO => "--info"
      | SDT_WARNING => "--warning"
      | SDT_ERROR => "--error"
      | SDT_YES_NO =>
          "--question --ok-label=" ++ dquote ++ "Yes" ++ dquote
          ++ " --cancel-label=" ++ dquote ++ "No" ++ dquote
      | SDT_OK_CANCEL =>
          "--question --ok-label=" ++ dquote ++ "OK" ++ dquote
          ++ " --cancel-label=" ++ dquote ++ "Cancel" ++ dquote
      end in
    let command :=
      "zenity " ++ options ++ " --text=" ++ dquote ++ message ++ dquote
      ++ " --title=" ++ dquote ++ title ++ dquote in
    code <- system (c_str command) ;;
    ret (match type with
         | SDT_YES_NO => if truthy code then SDR_NO else SDR_YES
         | SDT_OK_CANCEL => if truthy code then SDR_CANCEL else SDR_OK
         | _ => SDR_OK
         end).

(** [GetSaveDir()], lines 110-140. *)
Definition GetSaveDir : M string :=
  if PORTABLE_SAVES || DEV_BUILD
  then ret CSystemUtils_GetSaveDir
  else
    envXDG_DATA_HOME <- GetEnvVar "XDG_DATA_HOME" ;;
    savegameDir <-
      (if empty envXDG_DATA_HOME
       then
         envHOME <- GetEnvVar "HOME" ;;
         if empty envHOME
         then
           log Warn "Unable to find directory for saves - using default directory" [] ;;;
           ret CSystemUtils_GetSaveDir
         else ret (envHOME ++ "/.local/share/colobot")
       else ret (envXDG_DATA_HOME ++ "/colobot")) ;;
    log Trace ("Saved game files are going to %s" ++ nl)
        [ArgString (c_str savegameDir)] ;;;
    ret savegameDir.

(** [OpenPath(path)], lines 153-162. *)
Definition OpenPath (path : string) : M bool :=
  result <- system (c_str ("xdg-open " ++ dquote ++ path ++ dquote)) ;;
  if negb (result =? 0)%Z
  then
    log Error ("Failed to open path: %s, error code: %i" ++ nl)
        [ArgString (c_str path); ArgInt result] ;;;
    ret false
  else ret true.

(** [OpenWebsite(url)], lines 164-173. *)
Definition OpenWebsite (url : string) : M bool :=
  result <- system (c_str ("xdg-open " ++ dquote ++ url ++ dquote)) ;;
  if negb (result =? 0)%Z
  then
    log Error ("Failed to open website: %s, error code: %i" ++ nl)
        [ArgString (c_str url); ArgInt result] ;;;
    ret false
  else ret true.

End Host.

(** The save directory as the specification words it: the data-home variable
    first, then the home directory, then the built-in default. *)
Definition ResolveSaveDirectory_spec (env : string -> option string)
  (builtin : string) : string :=
  match env "XDG_DATA_HOME" with
  | Some (String c r) => String c r ++ "/colobot"
  | _ =>
      match env "HOME" with
      | Some (String c r) => String c r ++ "/.local/share/colobot"
      | _ => builtin
      end
  end.

Local Close Scope string_scope.

(** ** Notions used by the properties *)

(** A fraction between 0 and 1: a zero, or a positive finite number
    [m * 2 ^ e] that is at most 1. *)
Definition unit_fraction (i : Float32.float) : bool :=
  match i with
  | S754_zero _ => true
  | S754_finite false m e => (e <=? 0) && (Zpos m <=? 2 ^ (- e))
  | _ => false
  end.

(** What [GetEnvVar] returns for a name in an environment: the value, or the
    empty string for a name that is not set. *)
Definition env_value (env : string -> option string) (name : string) : string :=
  match env name with
  | Some value => value
  | None => EmptyString
  end.

Definition is_warn (e : LogEntry) : bool :=
  match level e with
  | Warn => true
  | _ => false
  end.

(** A zero, or a positive finite number below [2 ^ k]: its leading bit is
    at position [k] at most. *)
Definition nonneg_below (k : Z) (x : Float32.float) : Prop :=
  match x with
  | S754_zero _ => True
  | S754_finite s m e => s = false /\ Zpos (digits2_pos m) + e <= k
  | _ => False
  end.

(** *** Single-precision arithmetic as the specification words it

    Rounding to the nearest single-precision number, the rounded product and
    truncation toward zero, written with integer division only; to be
    compared with [Float32.of_int64], [Float32.mul] and [Float32.to_int64],
    which are what the code runs. *)

(** The integer nearest to [m / 2 ^ k], the even one of the two when [m / 2 ^ k]
    lies half-way ([0 <= k]). *)
Definition round_half_even (m k : Z) : Z :=
  let q := m / 2 ^ k in
  let r := m mod 2 ^ k in
  if 2 * r <? 2 ^ k then q
  else if 2 ^ k <? 2 * r then q + 1
  else if Z.even q then q else q + 1.

(** The exponent of the last bit that single precision keeps of [m * 2 ^ e]:
    24 bits from the leading one, not below 2^-149, and not below the last
    bit [e] of what is given. *)
Definition ulp_exponent (m e : Z) : Z :=
  Z.max e (Z.max (Z.log2 m + 1 + e - 24) (-149)).

(** The single-precision number nearest to [m * 2 ^ e] with sign [s], ties to
    even: the significand is rounded at [ulp_exponent]; a significand that
    rounds up to 2^24 is written 2^23 one exponent higher; beyond the largest
    exponent, 104, the result is an infinity. *)
Definition nearest_float (s : bool) (m e : Z) : Float32.float :=
  let e1 := ulp_exponent m e in
  match round_half_even m (e1 - e) with
  | Zpos p =>
      if Zpos p =? 2 ^ 24
      then (if e1 + 1 <=? 104 then S754_finite s 8388608 (e1 + 1) else S754_infinity s)
      else (if e1 <=? 104 then S754_finite s p e1 else S754_infinity s)
  | _ => S754_zero s
  end.

(** An integer rounded to the nearest single-precision number.  An integer of
    fewer than 24 bits is exact and is written on 24 bits. *)
Definition round_to_float (n : Z) : Float32.float :=
  match n with
  | Z0 => S754_zero false
  | Zpos p =>
      let j := Z.max 0 (24 - (Z.log2 (Zpos p) + 1)) in
      nearest_float false (Zpos p * 2 ^ j) (- j)
  | Zneg p =>
      let j := Z.max 0 (24 - (Z.log2 (Zpos p) + 1)) in
      nearest_float true (Zpos p * 2 ^ j) (- j)
  end.

(** The product of two finite numbers rounded to the nearest single-precision
    number; a zero when one of them is a zero. *)
Definition multiply_rounded (x y : Float32.float) : Float32.float :=
  match x, y with
  | S754_finite sx mx ex, S754_finite sy my ey =>
      nearest_float (xorb sx sy) (Zpos mx * Zpos my) (ex + ey)
  | S754_finite sx _ _, S754_zero sy
  | S754_zero sx, S754_finite sy _ _
  | S754_zero sx, S754_zero sy => S754_zero (xorb sx sy)
  | _, _ => S754_nan
  end.

(** A finite number with its fractional part dropped (toward zero). *)
Definition truncate (x : Float32.float) : Z :=
  match x with
  | S754_finite s m e =>
      if 0 <=? e then cond_Zopp s (Zpos m) * 2 ^ e
      else Z.quot (cond_Zopp s (Zpos m)) (2 ^ (- e))
  | _ => 0
  end.

(** The log entries a computation added to the ones of the world [w]. *)
Definition logged {A : Type} (w : World) (r : A * World) : list LogEntry :=
  skipn (List.length (journal w)) (journal (snd r)).

(** * Properties *)

(** ** Facts about 64-bit wrap-around *)

(** Goals and hypotheses about the 64-bit range are linear once unfolded. *)
Ltac range :=
  unfold Int64.in_range, Int64.min_signed, Int64.max_signed in *; lia.

Lemma wrap_periodic (z k : Z) : Int64.wrap (z + k * 2 ^ 64) = Int64.wrap z.
Proof.
  unfold Int64.wrap.
  replace (z + k * 2 ^ 64 + 2 ^ 63) with (z + 2 ^ 63 + k * 2 ^ 64) by ring.
  now rewrite Z_mod_plus_full.
Qed.

Lemma wrap_shape (z : Z) : exists k, Int64.wrap z = z + k * 2 ^ 64.
Proof.
  exists (- ((z + 2 ^ 63) / 2 ^ 64)). unfold Int64.wrap.
  rewrite Z.mod_eq by lia. ring.
Qed.

Lemma wrap_in_range (z : Z) : Int64.in_range (Int64.wrap z).
Proof.
  unfold Int64.in_range, Int64.wrap, Int64.min_signed, Int64.max_signed.
  pose proof (Z.mod_pos_bound (z + 2 ^ 63) (2 ^ 64)). lia.
Qed.

Lemma wrap_small (z : Z) : Int64.in_range z -> Int64.wrap z = z.
Proof.
  unfold Int64.in_range, Int64.wrap, Int64.min_signed, Int64.max_signed.
  intros H. rewrite Z.mod_small by lia. ring.
Qed.

Lemma wrap_add_l (x y : Z) : Int64.wrap (Int64.wrap x + y) = Int64.wrap (x + y).
Proof.
  destruct (wrap_shape x) as [k ->].
  replace (x + k * 2 ^ 64 + y) with (x + y + k * 2 ^ 64) by ring.
  apply wrap_periodic.
Qed.

Lemma wrap_add_r (x y : Z) : Int64.wrap (x + Int64.wrap y) = Int64.wrap (x + y).
Proof. rewrite Z.add_comm, wrap_add_l. f_equal. ring. Qed.

Lemma wrap_mul_l (x y : Z) : Int64.wrap (Int64.wrap x * y) = Int64.wrap (x * y).
Proof.
  destruct (wrap_shape x) as [k ->].
  replace ((x + k * 2 ^ 64) * y) with (x * y + (k * y) * 2 ^ 64) by ring.
  apply wrap_periodic.
Qed.

(** The difference is the exact one as soon as the exact one fits in a
    [long long]; wrap-around of the intermediate results cancels out. *)
Lemma TimeStampExactDiff_nanoseconds (a b : SystemTimeStamp) :
  TimeStampExactDiff a b = Int64.wrap (nanoseconds b - nanoseconds a).
Proof.
  unfold TimeStampExactDiff, nanoseconds, NSEC_PER_SEC, Int64.add, Int64.sub, Int64.mul.
  rewrite wrap_mul_l, wrap_add_l, wrap_add_r. f_equal. ring.
Qed.

(** C2. [TimeStampExactDiff(a, b)] is the signed number of nanoseconds from
    [a] to [b], (b.sec - a.sec) * 10^9 + (b.nsec - a.nsec), whenever that
    number fits in a [long long]; it is positive exactly when [b] denotes a
    later instant than [a]. *)
Theorem TimeStampExactDiff_exact (a b : SystemTimeStamp) :
  Int64.in_range (nanoseconds b - nanoseconds a) ->
  TimeStampExactDiff a b
  = (tv_sec (clockTime b) - tv_sec (clockTime a)) * 1000000000
    + (tv_nsec (clockTime b) - tv_nsec (clockTime a))
  /\ (0 < TimeStampExactDiff a b <-> nanoseconds a < nanoseconds b).
Proof.
  intros Hr. rewrite TimeStampExactDiff_nanoseconds, (wrap_small _ Hr).
  unfold nanoseconds, NSEC_PER_SEC. split; [ring | lia].
Qed.

Lemma TimeStampExactDiff_exact_witness :
  Int64.in_range (nanoseconds (stamp 7 5) - nanoseconds (stamp 3 999999999))
  /\ TimeStampExactDiff (stamp 3 999999999) (stamp 7 5) = 3000000006.
Proof.
  assert (Hr : Int64.in_range
                 (nanoseconds (stamp 7 5) - nanoseconds (stamp 3 999999999)))
    by (vm_compute; split; discriminate).
  split; [exact Hr|].
  exact (proj1 (TimeStampExactDiff_exact (stamp 3 999999999) (stamp 7 5) Hr)).
Defined.

(** On normalized time stamps the order of the instants is the lexicographic
    order of the two fields. *)
Lemma later_lexicographic (a b : SystemTimeStamp) :
  normalized a -> normalized b ->
  nanoseconds a < nanoseconds b
  <-> tv_sec (clockTime a) < tv_sec (clockTime b)
      \/ (tv_sec (clockTime a) = tv_sec (clockTime b)
          /\ tv_nsec (clockTime a) < tv_nsec (clockTime b)).
Proof.
  unfold normalized, nanoseconds, NSEC_PER_SEC. intros Ha Hb. lia.
Qed.

(** ** Facts about the single-precision operations *)

Lemma iter_pos_iter {A : Type} (f : A -> A) (n : positive) (x : A) :
  iter_pos f n x = Pos.iter f x n.
Proof.
  revert x. induction n as [n IH | n IH | ]; intros x; simpl.
  - rewrite !IH, <- !Pos.iter_swap. reflexivity.
  - rewrite !IH. reflexivity.
  - reflexivity.
Qed.

Lemma Zdigits2_log2 (p : positive) : Zdigits2 (Zpos p) = Z.log2 (Zpos p) + 1.
Proof.
  assert (H : forall q, Zpos (digits2_pos q) = Zpos (Pos.size q)).
  { induction q as [q IH | q IH | ]; simpl; rewrite ?Pos2Z.inj_succ, ?IH; reflexivity. }
  simpl. rewrite H. destruct p as [p | p | ]; simpl; rewrite ?Pos2Z.inj_succ; lia.
Qed.

Lemma Zdigits2_nonneg (m : Z) : 0 <= Zdigits2 m.
Proof. destruct m; simpl; lia. Qed.

Lemma Zdigits2_le (m : Z) (k : Z) : 0 <= m <= 2 ^ k -> 0 <= k -> Zdigits2 m <= k + 1.
Proof.
  intros [H0 Hm] Hk. destruct m as [ | p | p ]; [simpl; lia | | lia].
  rewrite Zdigits2_log2.
  pose proof (Z.log2_le_mono _ _ Hm) as Hl. rewrite Z.log2_pow2 in Hl by lia. lia.
Qed.

Lemma shr_1_bounds (mrs : shr_record) :
  0 <= shr_m mrs -> 0 <= shr_m (shr_1 mrs) <= shr_m mrs.
Proof.
  destruct mrs as [m r s]. simpl.
  destruct m as [ | [p | p | ] | p ]; simpl; lia.
Qed.

Lemma iter_shr_1_bounds (n : positive) (mrs : shr_record) :
  0 <= shr_m mrs -> 0 <= shr_m (iter_pos shr_1 n mrs) <= shr_m mrs.
Proof.
  rewrite iter_pos_iter. intros H.
  induction n as [ | n IH ] using Pos.peano_ind.
  - simpl. now apply shr_1_bounds.
  - rewrite Pos.iter_succ.
    pose proof (shr_1_bounds (Pos.iter shr_1 mrs n) (proj1 IH)). lia.
Qed.

Lemma shr_m_of_loc (m : Z) (l : location) : shr_m (shr_record_of_loc m l) = m.
Proof. destruct l as [ | [ | | ] ]; reflexivity. Qed.

(** One rounding shift keeps the mantissa between 0 and its argument, and
    moves the exponent up to the one the format asks for. *)
Lemma shr_fexp_bounds (m e : Z) (l : location) :
  0 <= m ->
  0 <= shr_m (fst (shr_fexp Float32.prec Float32.emax m e l)) <= m
  /\ snd (shr_fexp Float32.prec Float32.emax m e l)
     = Z.max e (fexp Float32.prec Float32.emax (Zdigits2 m + e)).
Proof.
  intros Hm. unfold shr_fexp, shr.
  destruct (fexp Float32.prec Float32.emax (Zdigits2 m + e) - e) as [ | n | n ] eqn:E;
    simpl.
  - rewrite shr_m_of_loc. lia.
  - pose proof (iter_shr_1_bounds n (shr_record_of_loc m l)) as H.
    rewrite shr_m_of_loc in H. split; [now apply H | lia].
  - rewrite shr_m_of_loc. lia.
Qed.

Lemma round_nearest_even_bounds (m : Z) (l : location) :
  0 <= m -> m <= round_nearest_even m l <= m + 1.
Proof.
  intros H. destruct l as [ | [ | | ] ]; simpl; try lia.
  destruct (Z.even m); lia.
Qed.

(** Rounding a mantissa of at most 65 bits at a small exponent never
    overflows: the result is a zero or a finite number. *)
Lemma binary_round_aux_finite (sx : bool) (mx ex : Z) (lx : location) :
  0 <= mx <= 2 ^ 64 -> -200 <= ex <= 0 ->
  Float32.finite (binary_round_aux Float32.prec Float32.emax sx mx ex lx) = true.
Proof.
  intros Hm He. unfold binary_round_aux.
  destruct (shr_fexp_bounds mx ex lx (proj1 Hm)) as [Hm1 He1].
  destruct (shr_fexp Float32.prec Float32.emax mx ex lx) as [mrs1 e1]. simpl in Hm1, He1.
  pose proof (round_nearest_even_bounds (shr_m mrs1) (loc_of_shr_record mrs1) (proj1 Hm1)) as Hr.
  set (m1 := round_nearest_even (shr_m mrs1) (loc_of_shr_record mrs1)) in *.
  assert (Hm1' : 0 <= m1) by lia.
  destruct (shr_fexp_bounds m1 e1 loc_Exact Hm1') as [Hm2 He2].
  destruct (shr_fexp Float32.prec Float32.emax m1 e1 loc_Exact) as [mrs2 e2].
  simpl in Hm2, He2.
  destruct (shr_m mrs2) as [ | m2 | m2 ]; [reflexivity | | lia].
  assert (Hd : Zdigits2 mx <= 65) by (apply (Zdigits2_le mx 64); lia).
  assert (Hd1 : Zdigits2 m1 <= 66) by (apply (Zdigits2_le m1 65); lia).
  pose proof (Zdigits2_nonneg mx). pose proof (Zdigits2_nonneg m1).
  unfold fexp, emin, Float32.prec, Float32.emax in *.
  destruct (Z.leb_spec e2 (128 - 24)); [reflexivity | lia].
Qed.

Lemma iter_xO_pow2 (p d : positive) : Zpos (Pos.iter xO p d) = Zpos p * 2 ^ Zpos d.
Proof.
  induction d as [ | d IH ] using Pos.peano_ind.
  - simpl. lia.
  - rewrite Pos.iter_succ, Pos2Z.inj_xO, IH, Pos2Z.inj_succ, Z.pow_succ_r by lia. ring.
Qed.

Lemma digits2_pos_iter_xO (p d : positive) :
  Zpos (digits2_pos (Pos.iter xO p d)) = Zpos (digits2_pos p) + Zpos d.
Proof.
  induction d as [ | d IH ] using Pos.peano_ind.
  - simpl. lia.
  - rewrite Pos.iter_succ. simpl digits2_pos. rewrite Pos2Z.inj_succ, IH. lia.
Qed.

Lemma Zpos_lt_pow2_digits (p : positive) : Zpos p < 2 ^ Zpos (digits2_pos p).
Proof.
  change (Zpos (digits2_pos p)) with (Zdigits2 (Zpos p)). rewrite Zdigits2_log2.
  apply Z.log2_spec. lia.
Qed.

Lemma Zpos_ge_pow2_digits (p : positive) : 2 ^ (Zpos (digits2_pos p) - 1) <= Zpos p.
Proof.
  change (Zpos (digits2_pos p)) with (Zdigits2 (Zpos p)). rewrite Zdigits2_log2.
  replace (Z.log2 (Zpos p) + 1 - 1) with (Z.log2 (Zpos p)) by ring.
  apply Z.log2_spec. lia.
Qed.

(** The alignment that precedes the rounding of an integer: a number of fewer
    than 24 bits is shifted left to 24 bits, a longer one is left alone. *)
Lemma shl_align_int (p : positive) :
  let d := Zpos (digits2_pos p) in
  shl_align p 0 (fexp Float32.prec Float32.emax (d + 0))
  = if d <? 24 then (Pos.iter xO p (Z.to_pos (24 - d)), d - 24) else (p, 0).
Proof.
  intros d. unfold shl_align, fexp, emin, Float32.prec, Float32.emax.
  assert (Hd : 0 < d) by (unfold d; lia).
  destruct (Z.ltb_spec d 24) as [Hlt | Hge].
  - replace (Z.max (d + 0 - 24) (3 - 128 - 24)) with (d - 24) by lia.
    destruct (d - 24 - 0) as [ | n | n ] eqn:E; try lia.
    replace (24 - d) with (Zpos n) by lia. reflexivity.
  - replace (Z.max (d + 0 - 24) (3 - 128 - 24)) with (d - 24) by lia.
    destruct (d - 24 - 0) as [ | n | n ] eqn:E; try lia; reflexivity.
Qed.

(** The conversion of a 64-bit integer to [float] never overflows. *)
Lemma of_int64_finite (n : Z) :
  Int64.in_range n -> Float32.finite (Float32.of_int64 n) = true.
Proof.
  unfold Int64.in_range, Int64.min_signed, Int64.max_signed. intros Hn.
  assert (H : forall s p, Zpos p <= 2 ^ 63 ->
            Float32.finite (binary_round Float32.prec Float32.emax s p 0) = true).
  { intros s p Hp. unfold binary_round. rewrite shl_align_int.
    destruct (Z.ltb_spec (Zpos (digits2_pos p)) 24) as [Hlt | Hge].
    - apply binary_round_aux_finite; [ | lia].
      rewrite iter_xO_pow2, Z2Pos.id by lia.
      pose proof (Zpos_lt_pow2_digits p) as Hlt'.
      assert (Zpos p * 2 ^ (24 - Zpos (digits2_pos p)) < 2 ^ 24).
      { replace (2 ^ 24) with (2 ^ Zpos (digits2_pos p) * 2 ^ (24 - Zpos (digits2_pos p))).
        - apply Z.mul_lt_mono_pos_r; [apply Z.pow_pos_nonneg; lia | exact Hlt'].
        - rewrite <- Z.pow_add_r by lia. f_equal. lia. }
      lia.
    - apply binary_round_aux_finite; lia. }
  unfold Float32.of_int64, binary_normalize.
  destruct n as [ | p | p ]; [reflexivity | apply H; lia | apply H; lia].
Qed.

(** Multiplying by zero: the truncated product is 0 whatever the difference. *)
Lemma scale_zero (n : Z) : Int64.in_range n -> scale n Float32.zero = 0.
Proof.
  intros Hn. unfold scale. pose proof (of_int64_finite n Hn) as Hf.
  destruct (Float32.of_int64 n); try discriminate; reflexivity.
Qed.

Lemma iter_shr_1_exact (n m : positive) :
  iter_pos shr_1 n (Build_shr_record (Zpos (Pos.iter xO m n)) false false)
  = Build_shr_record (Zpos m) false false.
Proof.
  rewrite iter_pos_iter. induction n as [ | n IH ] using Pos.peano_ind.
  - reflexivity.
  - rewrite Pos.iter_succ_r, Pos.iter_succ. simpl shr_1. exact IH.
Qed.

Lemma shr_fexp_canonical (m : positive) (e : Z) :
  Zpos (digits2_pos m) = 24 -> -149 <= e ->
  shr_fexp Float32.prec Float32.emax (Zpos m) e loc_Exact
  = (Build_shr_record (Zpos m) false false, e).
Proof.
  intros Hd He.
  unfold shr_fexp, fexp, emin, Float32.prec, Float32.emax. simpl Zdigits2. rewrite Hd.
  replace (Z.max (24 + e - 24) (3 - 128 - 24) - e) with 0 by lia. reflexivity.
Qed.

Lemma finite_or_overflow (s : bool) (m : positive) (e : Z) :
  e <= 104 ->
  (if e <=? Float32.emax - Float32.prec then S754_finite s m e else S754_infinity s)
  = S754_finite s m e.
Proof.
  intros He. unfold Float32.emax, Float32.prec. simpl Z.sub.
  destruct (Z.leb_spec e 104); [reflexivity | lia].
Qed.

(** A 24-bit mantissa at an exponent of the format is left as it is. *)
Lemma binary_round_aux_canonical (s : bool) (m : positive) (e : Z) :
  Zpos (digits2_pos m) = 24 -> -149 <= e <= 104 ->
  binary_round_aux Float32.prec Float32.emax s (Zpos m) e loc_Exact
  = S754_finite s m e.
Proof.
  intros Hd He. unfold binary_round_aux.
  rewrite shr_fexp_canonical by (trivial; lia). simpl.
  rewrite shr_fexp_canonical by (trivial; lia). simpl.
  apply finite_or_overflow. lia.
Qed.

(** Multiplication by 1.0f is exact on a normal number. *)
Lemma mul_one_canonical (s : bool) (m : positive) (e : Z) :
  Zpos (digits2_pos m) = 24 -> -126 <= e <= 104 ->
  Float32.mul (S754_finite s m e) Float32.one = S754_finite s m e.
Proof.
  intros Hd He. unfold Float32.mul, Float32.one, SFmul.
  replace (xorb s false) with s by (destruct s; reflexivity).
  replace (m * 8388608)%positive with (Pos.iter xO m 23)
    by (rewrite Pos.mul_comm; reflexivity).
  assert (Hs : shr_fexp Float32.prec Float32.emax (Zpos (Pos.iter xO m 23)) (e + -23) loc_Exact
               = (Build_shr_record (Zpos m) false false, e)).
  { unfold shr_fexp, fexp, emin, Float32.prec, Float32.emax.
    change (Zdigits2 (Zpos (Pos.iter xO m 23)))
      with (Zpos (digits2_pos (Pos.iter xO m 23))).
    rewrite digits2_pos_iter_xO, Hd.
    replace (Z.max (24 + 23 + (e + -23) - 24) (3 - 128 - 24) - (e + -23)) with 23 by lia.
    unfold shr. change (shr_record_of_loc (Zpos (Pos.iter xO m 23)) loc_Exact)
      with (Build_shr_record (Zpos (Pos.iter xO m 23)) false false).
    rewrite iter_shr_1_exact. f_equal. lia. }
  unfold binary_round_aux. rewrite Hs. simpl loc_of_shr_record. simpl round_nearest_even.
  rewrite shr_fexp_canonical by (trivial; lia). simpl.
  apply finite_or_overflow. lia.
Qed.

(** An integer of fewer than 25 bits converts to [float] without rounding. *)
Lemma of_int64_small (s : bool) (p : positive) :
  Zpos p < 2 ^ 24 ->
  exists (m : positive) (e : Z),
    binary_round Float32.prec Float32.emax s p 0 = S754_finite s m e
    /\ Zpos (digits2_pos m) = 24 /\ -23 <= e <= 0
    /\ Z.shiftl (Zpos m) e = Zpos p.
Proof.
  intros Hp. unfold binary_round. rewrite shl_align_int.
  assert (Hd : Zpos (digits2_pos p) <= 24).
  { pose proof (Zpos_ge_pow2_digits p) as Hge.
    destruct (Z.le_gt_cases (Zpos (digits2_pos p)) 24) as [H | H]; [exact H | exfalso].
    assert (2 ^ 24 <= 2 ^ (Zpos (digits2_pos p) - 1)) by (apply Z.pow_le_mono_r; lia).
    lia. }
  destruct (Z.ltb_spec (Zpos (digits2_pos p)) 24) as [Hlt | Hge].
  - set (d := Z.to_pos (24 - Zpos (digits2_pos p))).
    assert (Hdd : Zpos d = 24 - Zpos (digits2_pos p)) by (unfold d; rewrite Z2Pos.id; lia).
    exists (Pos.iter xO p d), (Zpos (digits2_pos p) - 24).
    assert (H24 : Zpos (digits2_pos (Pos.iter xO p d)) = 24)
      by (rewrite digits2_pos_iter_xO; lia).
    split; [apply binary_round_aux_canonical; [exact H24 | lia] | ].
    split; [exact H24 | ]. split; [lia | ].
    replace (Zpos (digits2_pos p) - 24) with (- Zpos d) by lia.
    rewrite Z.shiftl_opp_r, Z.shiftr_div_pow2, iter_xO_pow2 by lia.
    apply Z.div_mul. apply Z.pow_nonzero; lia.
  - exists p, 0. assert (H24 : Zpos (digits2_pos p) = 24) by lia.
    split; [apply binary_round_aux_canonical; [exact H24 | lia] | ].
    split; [exact H24 | ]. split; [lia | reflexivity].
Qed.

(** Multiplying by 1.0f gives the difference back as long as it has fewer than
    25 bits. *)
Lemma scale_one_small (n : Z) : - 2 ^ 24 < n < 2 ^ 24 -> scale n Float32.one = n.
Proof.
  intros Hn.
  assert (H : forall s p, Zpos p < 2 ^ 24 ->
            Float32.to_int64 (Float32.mul (binary_round Float32.prec Float32.emax s p 0)
                                          Float32.one)
            = cond_Zopp s (Zpos p)).
  { intros s p Hp. destruct (of_int64_small s p Hp) as (m & e & -> & Hd & He & Hv).
    rewrite mul_one_canonical by (trivial; lia). unfold Float32.to_int64. rewrite Hv.
    unfold Int64.min_signed, Int64.max_signed.
    destruct s; simpl cond_Zopp;
      match goal with
      | |- (if ?b then _ else _) = _ =>
          replace b with true; [reflexivity | symmetry; apply andb_true_intro; split; apply Z.leb_le; lia]
      end. }
  unfold scale, Float32.of_int64, binary_normalize.
  destruct n as [ | p | p ]; [reflexivity | | ].
  - rewrite H by lia. reflexivity.
  - rewrite H by lia. reflexivity.
Qed.

Lemma to_int64_in_range (x : Float32.float) : Int64.in_range (Float32.to_int64 x).
Proof.
  unfold Float32.to_int64, Int64.in_range.
  destruct x as [s | s | | s m e]; try (unfold Int64.min_signed, Int64.max_signed; lia).
  cbv zeta.
  destruct (Z.leb_spec Int64.min_signed (cond_Zopp s (Z.shiftl (Zpos m) e)));
    destruct (Z.leb_spec (cond_Zopp s (Z.shiftl (Zpos m) e)) Int64.max_signed);
    simpl; unfold Int64.min_signed, Int64.max_signed in *; lia.
Qed.

Lemma scale_in_range (n : Z) (i : Float32.float) : Int64.in_range (scale n i).
Proof. apply to_int64_in_range. Qed.

(** ** Interpolation *)

Lemma quot_in_range (d : Z) : Int64.in_range d -> Int64.in_range (Z.quot d 1000000000).
Proof.
  unfold Int64.in_range, Int64.min_signed, Int64.max_signed. intros H.
  Z.to_euclidean_division_equations. lia.
Qed.

Lemma rem_bounds (d : Z) :
  - 1000000000 < Z.rem d 1000000000 < 1000000000
  /\ (0 <= d -> 0 <= Z.rem d 1000000000)
  /\ (d <= 0 -> Z.rem d 1000000000 <= 0).
Proof. Z.to_euclidean_division_equations. lia. Qed.

(** The stores of [InterpolateTimeStamp] with the wrap-around resolved, for a
    normalized [a] whose seconds leave room for the delta and the carry. *)
Lemma InterpolateTimeStamp_fields (a b : SystemTimeStamp) (i : Float32.float) :
  let d := scale (TimeStampExactDiff a b) i in
  let sec := tv_sec (clockTime a) + Z.quot d 1000000000 in
  let nsec := tv_nsec (clockTime a) + Z.rem d 1000000000 in
  normalized a ->
  Int64.in_range sec ->
  (1000000000 <= nsec -> sec < Int64.max_signed) ->
  InterpolateTimeStamp a b i
  = if 1000000000 <=? nsec then stamp (sec + 1) (nsec - 1000000000) else stamp sec nsec.
Proof.
  intros d sec nsec Ha Hs Hc. unfold InterpolateTimeStamp. fold d.
  unfold normalized, NSEC_PER_SEC in Ha.
  pose proof (proj1 (rem_bounds d)) as Hr.
  pose proof (quot_in_range d (scale_in_range _ _)) as Hq.
  unfold Int64.add, Int64.sub, Int64.quot, Int64.rem.
  rewrite (wrap_small (Z.quot d 1000000000)) by exact Hq.
  fold sec. fold nsec.
  assert (Hn : Int64.wrap nsec = nsec).
  { apply wrap_small. range. }
  rewrite Hn, (wrap_small sec Hs).
  destruct (Z.leb_spec 1000000000 nsec) as [Hge | Hlt]; [ | reflexivity].
  specialize (Hc Hge).
  rewrite !wrap_small;
    [reflexivity | | ];
    range.
Qed.

Lemma stamp_eta (t : SystemTimeStamp) :
  stamp (tv_sec (clockTime t)) (tv_nsec (clockTime t)) = t.
Proof. destruct t as [[s n]]. reflexivity. Qed.

(** C1, as stated, fails for the fraction 1: a difference of 2^24 + 1
    nanoseconds has no single-precision representation, it is rounded to 2^24
    before the multiplication, and the result falls one nanosecond short of
    [b]. *)
Lemma InterpolateTimeStamp_one_misses_b :
  InterpolateTimeStamp (stamp 0 0) (stamp 0 16777217) Float32.one = stamp 0 16777216
  /\ InterpolateTimeStamp (stamp 0 0) (stamp 0 16777217) Float32.one <> stamp 0 16777217.
Proof.
  assert (E : InterpolateTimeStamp (stamp 0 0) (stamp 0 16777217) Float32.one
              = stamp 0 16777216) by (vm_compute; reflexivity).
  split; [exact E | rewrite E; discriminate].
Qed.

(** C1, amended.  For a normalized [a] (fields in 64-bit range) and every [b],
    the fraction 0 returns exactly [a]; the fraction 1 returns exactly [b] when
    [b] is normalized too, not earlier than [a], and less than 2^24
    nanoseconds after it, so that the difference is exact in single
    precision. *)
Theorem InterpolateTimeStamp_endpoints (a b : SystemTimeStamp) :
  representable a -> normalized a ->
  InterpolateTimeStamp a b Float32.zero = a
  /\ (representable b -> normalized b ->
      0 <= nanoseconds b - nanoseconds a < 2 ^ 24 ->
      InterpolateTimeStamp a b Float32.one = b).
Proof.
  intros [Hsa Hna] Ha. split.
  - pose proof (scale_zero (TimeStampExactDiff a b)) as Hz.
    rewrite TimeStampExactDiff_nanoseconds in Hz. specialize (Hz (wrap_in_range _)).
    rewrite <- TimeStampExactDiff_nanoseconds in Hz.
    pose proof (InterpolateTimeStamp_fields a b Float32.zero) as F. cbv zeta in F.
    rewrite Hz, Z.quot_0_l, Z.rem_0_l, !Z.add_0_r in F by lia.
    unfold normalized, NSEC_PER_SEC in Ha.
    rewrite F.
    + destruct (Z.leb_spec 1000000000 (tv_nsec (clockTime a))); [lia | apply stamp_eta].
    + exact Ha.
    + exact Hsa.
    + lia.
  - intros [Hsb Hnb] Hb Hd.
    assert (Hdiff : TimeStampExactDiff a b = nanoseconds b - nanoseconds a).
    { rewrite TimeStampExactDiff_nanoseconds. apply wrap_small.
      range. }
    assert (Hsc : scale (TimeStampExactDiff a b) Float32.one
                  = nanoseconds b - nanoseconds a).
    { rewrite Hdiff. apply scale_one_small. lia. }
    assert (Hq : Z.quot (nanoseconds b - nanoseconds a) 1000000000 = 0)
      by (apply Z.quot_small; lia).
    assert (Hr : Z.rem (nanoseconds b - nanoseconds a) 1000000000
                 = nanoseconds b - nanoseconds a)
      by (apply Z.rem_small; lia).
    pose proof (InterpolateTimeStamp_fields a b Float32.one) as F. cbv zeta in F.
    rewrite Hsc, Hq, Hr, Z.add_0_r in F.
    unfold Int64.in_range, Int64.min_signed, Int64.max_signed,
           normalized, nanoseconds, NSEC_PER_SEC in *.
    rewrite F; [ | exact Ha | exact Hsa | lia].
    clear F Hsc Hq Hr Hdiff.
    destruct a as [[sa na]], b as [[sb nb]]. cbn [clockTime tv_sec tv_nsec] in *.
    destruct (Z.leb_spec 1000000000 (na + (sb * 1000000000 + nb - (sa * 1000000000 + na))));
      unfold stamp; do 2 f_equal; lia.
Qed.

Lemma InterpolateTimeStamp_endpoints_witness :
  InterpolateTimeStamp (stamp 41 999999000) (stamp 42 5000) Float32.zero
  = stamp 41 999999000
  /\ InterpolateTimeStamp (stamp 41 999999000) (stamp 42 5000) Float32.one
     = stamp 42 5000.
Proof.
  assert (Hr : forall s n, Int64.min_signed <= s <= Int64.max_signed ->
                           Int64.min_signed <= n <= Int64.max_signed ->
                           representable (stamp s n))
    by (intros s n Hs Hn; split; assumption).
  assert (Ha : representable (stamp 41 999999000))
    by (apply Hr; vm_compute; split; discriminate).
  assert (Hb : representable (stamp 42 5000))
    by (apply Hr; vm_compute; split; discriminate).
  assert (Na : normalized (stamp 41 999999000)) by (vm_compute; split; [discriminate | reflexivity]).
  assert (Nb : normalized (stamp 42 5000)) by (vm_compute; split; [discriminate | reflexivity]).
  destruct (InterpolateTimeStamp_endpoints (stamp 41 999999000) (stamp 42 5000) Ha Na)
    as [H0 H1].
  split; [exact H0 | apply H1; [exact Hb | exact Nb | ]].
  vm_compute. split; [discriminate | reflexivity].
Defined.

(** At the two end points, and on differences that single precision holds
    exactly, the delta of the code is the exact truncated product. *)
Lemma scale_exact_endpoints (n : Z) :
  (Int64.in_range n -> scale n Float32.zero = scale_spec n Float32.zero)
  /\ (- 2 ^ 24 < n < 2 ^ 24 -> scale n Float32.one = scale_spec n Float32.one).
Proof.
  split; intros H.
  - rewrite scale_zero by exact H. reflexivity.
  - rewrite scale_one_small by exact H.
    unfold scale_spec, Float32.one, Float32.signif, Float32.expo, cond_Zopp.
    change (0 <=? -23) with false. cbv iota.
    change (2 ^ (- -23)) with 8388608.
    rewrite Z.mul_comm, Z.quot_mul by lia. reflexivity.
Qed.

(** C5, as stated, fails at the fraction 0.5: the difference 16777219 ns is
    rounded to the float 16777220 before the multiplication, so the delta is
    8388610, while 0.5 * 16777219 = 8388609.5 truncates to 8388609. *)
Lemma InterpolateTimeStamp_half_not_truncated :
  TimeStampExactDiff (stamp 0 0) (stamp 0 16777219) = 16777219
  /\ scale_spec 16777219 Float32.half = 8388609
  /\ nanoseconds (InterpolateTimeStamp (stamp 0 0) (stamp 0 16777219) Float32.half)
     = 8388610
  /\ nanoseconds (InterpolateTimeStamp (stamp 0 0) (stamp 0 16777219) Float32.half)
     <> nanoseconds (stamp 0 0)
        + scale_spec (TimeStampExactDiff (stamp 0 0) (stamp 0 16777219)) Float32.half.
Proof.
  assert (E : nanoseconds (InterpolateTimeStamp (stamp 0 0) (stamp 0 16777219) Float32.half)
              = 8388610) by (vm_compute; reflexivity).
  repeat split; try (vm_compute; reflexivity).
  rewrite E. vm_compute. discriminate.
Qed.

(** The stores add the delta of the code to the instant of [a], for a
    normalized [a] and a result whose seconds stay in 64-bit range. *)
Lemma InterpolateTimeStamp_adds_scale (a b : SystemTimeStamp) (i : Float32.float) :
  normalized a ->
  Int64.min_signed
  <= tv_sec (clockTime a) + Z.quot (scale (TimeStampExactDiff a b) i) 1000000000
  < Int64.max_signed ->
  nanoseconds (InterpolateTimeStamp a b i)
  = nanoseconds a + scale (TimeStampExactDiff a b) i.
Proof.
  intros Ha Hs.
  rewrite InterpolateTimeStamp_fields;
    [ | exact Ha | unfold Int64.in_range; lia | intros _; lia].
  pose proof (Z.quot_rem' (scale (TimeStampExactDiff a b) i) 1000000000) as E.
  set (d := scale (TimeStampExactDiff a b) i) in *.
  destruct (1000000000 <=? tv_nsec (clockTime a) + Z.rem d 1000000000);
    unfold nanoseconds, NSEC_PER_SEC; simpl; lia.
Qed.

(** When the delta is not negative the nanoseconds of the result are
    normalized: the carry is taken care of. *)
Lemma InterpolateTimeStamp_normalized_forward (a b : SystemTimeStamp) (i : Float32.float) :
  normalized a -> 0 <= scale (TimeStampExactDiff a b) i ->
  normalized (InterpolateTimeStamp a b i).
Proof.
  intros Ha Hd. unfold InterpolateTimeStamp.
  set (d := scale (TimeStampExactDiff a b) i) in *.
  pose proof (rem_bounds d) as (Hr & Hr0 & _). specialize (Hr0 Hd).
  unfold normalized, NSEC_PER_SEC in *.
  unfold Int64.add, Int64.rem, Int64.sub.
  rewrite (wrap_small (tv_nsec (clockTime a) + Z.rem d 1000000000))
    by range.
  destruct (Z.leb_spec 1000000000 (tv_nsec (clockTime a) + Z.rem d 1000000000));
    cbn [stamp clockTime tv_nsec].
  - rewrite wrap_small
      by range.
    lia.
  - lia.
Qed.

(** C9 fails where the delta is negative: only the carry above 10^9 is
    handled, a borrow below 0 is not.  From 1.000000000 s to 0.999999999 s at
    fraction 1, and from 5.000000000 s toward 5.000000001 s at fraction -1,
    the nanoseconds field of the result is -1. *)
Theorem InterpolateTimeStamp_negative_nsec :
  (normalized (stamp 1 0) /\ normalized (stamp 0 999999999)
   /\ InterpolateTimeStamp (stamp 1 0) (stamp 0 999999999) Float32.one = stamp 1 (-1))
  /\ (normalized (stamp 5 0) /\ normalized (stamp 5 1)
      /\ InterpolateTimeStamp (stamp 5 0) (stamp 5 1) Float32.minus_one
         = stamp 5 (-1))
  /\ ~ normalized (stamp 1 (-1)) /\ ~ normalized (stamp 5 (-1)).
Proof.
  assert (N : forall s n, (0 <=? n) && (n <? 1000000000) = true -> normalized (stamp s n)).
  { intros s n H. apply andb_prop in H. destruct H as [H1 H2].
    apply Z.leb_le in H1. apply Z.ltb_lt in H2. split; assumption. }
  repeat split; try (apply N; reflexivity); try (vm_compute; reflexivity);
    intros [H _]; apply H; reflexivity.
Qed.

(** ** The monotonic clock *)

Lemma host_run_monotonic_raw (evs : list HostEvent) (w : World) :
  clock_monotonic_raw (host_run w evs) = (clock_monotonic_raw w + elapsed evs)%N.
Proof.
  unfold host_run. revert w.
  induction evs as [ | ev evs IH ]; intros w; simpl.
  - lia.
  - rewrite IH. destruct ev as [ns | now]; simpl; lia.
Qed.

Lemma nanoseconds_timespec_of_ns (n : Z) :
  nanoseconds (mk_stamp (timespec_of_ns n)) = n.
Proof.
  unfold nanoseconds, timespec_of_ns, NSEC_PER_SEC. simpl.
  pose proof (Z.div_mod n 1000000000). lia.
Qed.

(** The wall clock is not monotonic in this model: a reading of
    [CLOCK_REALTIME] taken after the clock was set back is earlier. *)
Lemma realtime_reading_goes_backward :
  TimeStampExactDiff
    (mk_stamp (fst (clock_gettime CLOCK_REALTIME (mk_world (fun _ => None) 0 100 [] []))))
    (mk_stamp (fst (clock_gettime CLOCK_REALTIME
                      (host_run (mk_world (fun _ => None) 0 100 [] [])
                                [Elapse 1; SetWallClock 40]))))
  = -60.
Proof. vm_compute. reflexivity. Qed.

Lemma GetCurrentTimeStamp_reads (w : World) :
  GetCurrentTimeStamp w
  = (mk_stamp (timespec_of_ns (Z.of_N (clock_monotonic_raw w))), w).
Proof. reflexivity. Qed.

(** C8.  Take a time stamp, let the host go through any events (time passing,
    the wall clock being set), take a second one: the difference from the
    first to the second is the time that passed, hence never negative, as
    long as the monotonic clock stays below 2^63 ns. *)
Theorem GetCurrentTimeStamp_monotonic (w : World) (evs : list HostEvent) :
  let a := fst (GetCurrentTimeStamp w) in
  let w1 := snd (GetCurrentTimeStamp w) in
  let b := fst (GetCurrentTimeStamp (host_run w1 evs)) in
  Z.of_N (clock_monotonic_raw (host_run w1 evs)) <= Int64.max_signed ->
  TimeStampExactDiff a b = Z.of_N (elapsed evs) /\ 0 <= TimeStampExactDiff a b.
Proof.
  intros a w1 b. subst a w1 b. rewrite !GetCurrentTimeStamp_reads. cbn [fst snd].
  rewrite host_run_monotonic_raw. intros Hmax.
  rewrite TimeStampExactDiff_nanoseconds, !nanoseconds_timespec_of_ns.
  rewrite wrap_small.
  - lia.
  - range.
Qed.

Lemma GetCurrentTimeStamp_monotonic_witness :
  TimeStampExactDiff
    (fst (GetCurrentTimeStamp (mk_world (fun _ => None) 1999999999 1700000000 [] [])))
    (fst (GetCurrentTimeStamp
            (host_run (snd (GetCurrentTimeStamp
                              (mk_world (fun _ => None) 1999999999 1700000000 [] [])))
                      [Elapse 2; SetWallClock (-5); Elapse 3000000000])))
  = 3000000002.
Proof.
  refine (proj1 (GetCurrentTimeStamp_monotonic
                   (mk_world (fun _ => None) 1999999999 1700000000 [] [])
                   [Elapse 2; SetWallClock (-5); Elapse 3000000000] _)).
  vm_compute. discriminate.
Defined.

(** ** C strings *)

Lemma c_str_no_nul (s : string) : has_nul s = false -> c_str s = s.
Proof.
  induction s as [ | c rest IH ]; simpl; [reflexivity | ].
  destruct (Ascii.eqb c (ascii_of_nat 0)); simpl; [discriminate | ].
  intros H. now rewrite IH.
Qed.

(** ** Environment variables and the save directory *)

Local Open Scope string_scope.

(** C6.  [GetEnvVar] returns the empty string for a name that is not set,
    leaving the world as it was (nothing is logged, nothing fails), and the
    value of a name that is set, logging it at trace level only. *)
Theorem GetEnvVar_lookup (name : string) (w : World) :
  (environ w (c_str name) = None -> GetEnvVar name w = (EmptyString, w))
  /\ (forall value, environ w (c_str name) = Some value ->
      fst (GetEnvVar name w) = value
      /\ exists entry, journal (snd (GetEnvVar name w)) = (journal w ++ [entry])%list
                       /\ level entry = Trace).
Proof.
  unfold GetEnvVar, bind, getenv, log, ret. split.
  - intros H. rewrite H. reflexivity.
  - intros value H. rewrite H. simpl. split; [reflexivity | ].
    eexists. split; reflexivity.
Qed.

Lemma GetEnvVar_lookup_witness :
  GetEnvVar "DEFINITELY_UNSET_VAR_X" (mk_world (fun _ => None) 0 0 [] [])
  = (EmptyString, mk_world (fun _ => None) 0 0 [] [])
  /\ fst (GetEnvVar "HOME"
            (mk_world (fun n => if n =? "HOME" then Some "/home/robot" else None) 0 0 [] []))
     = "/home/robot".
Proof.
  split.
  - apply (proj1 (GetEnvVar_lookup "DEFINITELY_UNSET_VAR_X"
                    (mk_world (fun _ => None) 0 0 [] []))).
    reflexivity.
  - apply (proj2 (GetEnvVar_lookup "HOME"
                    (mk_world (fun n => if n =? "HOME" then Some "/home/robot" else None)
                              0 0 [] []))).
    reflexivity.
Defined.

Lemma GetEnvVar_value (name : string) (w : World) :
  fst (GetEnvVar name w)
  = match environ w (c_str name) with Some value => value | None => EmptyString end.
Proof.
  unfold GetEnvVar, bind, getenv. destruct (environ w (c_str name)); reflexivity.
Qed.

Lemma GetEnvVar_environ (name : string) (w : World) :
  environ (snd (GetEnvVar name w)) = environ w.
Proof.
  unfold GetEnvVar, bind, getenv. destruct (environ w (c_str name)); reflexivity.
Qed.

(** C4, as stated, fails in a portable build: with [PORTABLE_SAVES] set the
    environment is not read at all and the built-in path is returned, here
    although XDG_DATA_HOME is set to /data. *)
Lemma GetSaveDir_portable_ignores_environment :
  fst (GetSaveDir true false "./saves"
         (mk_world (fun n => if n =? "XDG_DATA_HOME" then Some "/data" else None) 0 0 [] []))
  = "./saves"
  /\ ResolveSaveDirectory_spec
       (fun n => if n =? "XDG_DATA_HOME" then Some "/data" else None) "./saves"
     = "/data/colobot"
  /\ fst (GetSaveDir true false "./saves"
            (mk_world (fun n => if n =? "XDG_DATA_HOME" then Some "/data" else None) 0 0 [] []))
     <> ResolveSaveDirectory_spec
          (fun n => if n =? "XDG_DATA_HOME" then Some "/data" else None) "./saves".
Proof.
  repeat split; try reflexivity. vm_compute. discriminate.
Qed.

(** C4, amended.  In a build with neither [PORTABLE_SAVES] nor [DEV_BUILD] the
    save directory is XDG_DATA_HOME followed by /colobot when that variable is
    set and not empty, otherwise HOME followed by /.local/share/colobot when
    that one is set and not empty, otherwise the built-in path; with either
    symbol set it is the built-in path whatever the environment holds. *)
Theorem GetSaveDir_precedence (PORTABLE_SAVES DEV_BUILD : bool) (builtin : string)
  (w : World) :
  fst (GetSaveDir PORTABLE_SAVES DEV_BUILD builtin w)
  = if PORTABLE_SAVES || DEV_BUILD then builtin
    else ResolveSaveDirectory_spec (environ w) builtin.
Proof.
  unfold GetSaveDir. destruct (PORTABLE_SAVES || DEV_BUILD); [reflexivity | ].
  unfold ResolveSaveDirectory_spec, bind.
  change (c_str "XDG_DATA_HOME") with "XDG_DATA_HOME".
  pose proof (GetEnvVar_value "XDG_DATA_HOME" w) as Hx.
  pose proof (GetEnvVar_environ "XDG_DATA_HOME" w) as He.
  change (c_str "XDG_DATA_HOME") with "XDG_DATA_HOME" in Hx.
  destruct (GetEnvVar "XDG_DATA_HOME" w) as [xdg w1]. simpl in Hx, He. subst xdg.
  destruct (environ w "XDG_DATA_HOME") as [[ | c r] | ]; simpl; try reflexivity.
  - pose proof (GetEnvVar_value "HOME" w1) as Hh.
    change (c_str "HOME") with "HOME" in Hh. rewrite He in Hh.
    destruct (GetEnvVar "HOME" w1) as [home w2]. simpl in Hh. subst home.
    destruct (environ w "HOME") as [[ | c r] | ]; reflexivity.
  - pose proof (GetEnvVar_value "HOME" w1) as Hh.
    change (c_str "HOME") with "HOME" in Hh. rewrite He in Hh.
    destruct (GetEnvVar "HOME" w1) as [home w2]. simpl in Hh. subst home.
    destruct (environ w "HOME") as [[ | c r] | ]; reflexivity.
Qed.

(** ** Dialogs *)

(** C3.  With zenity available, [SystemDialog] runs one command and decides
    on its status [code] alone: for [SDT_YES_NO], 0 gives [SDR_YES] and
    anything else [SDR_NO]; for [SDT_OK_CANCEL], 0 gives [SDR_OK] and anything
    else [SDR_CANCEL]; for the informational kinds the result is [SDR_OK]
    whatever the status. *)
Theorem SystemDialog_result
  (wait_status : list string -> string -> Z)
  (ConsoleSystemDialog : SystemDialogType -> string -> string -> M SystemDialogResult)
  (this : CSystemUtilsLinux) (type : SystemDialogType) (title message : string)
  (w : World) :
  m_zenityAvailable this = true ->
  exists command,
    commands (snd (SystemDialog wait_status ConsoleSystemDialog this type title message w))
    = (commands w ++ [command])%list
    /\ let code := wait_status (commands w) command in
       let result :=
         fst (SystemDialog wait_status ConsoleSystemDialog this type title message w) in
       (type = SDT_YES_NO ->
        (code = 0 -> result = SDR_YES) /\ (code <> 0 -> result = SDR_NO))
       /\ (type = SDT_OK_CANCEL ->
           (code = 0 -> result = SDR_OK) /\ (code <> 0 -> result = SDR_CANCEL))
       /\ (type = SDT_INFO \/ type = SDT_WARNING \/ type = SDT_ERROR ->
           result = SDR_OK).
Proof.
  intros Hz. unfold SystemDialog. rewrite Hz. cbn [negb].
  unfold bind, system, ret. cbn [fst snd commands].
  eexists. split; [reflexivity | ]. cbv zeta.
  match goal with |- context [wait_status ?h ?c] => generalize (wait_status h c) end.
  intros code. unfold truthy.
  destruct (Z.eqb_spec code 0) as [E | E]; destruct type; cbn [negb];
    repeat split; intros; try reflexivity; try congruence;
    match goal with H : _ \/ _ |- _ => destruct H as [H | [H | H]]; discriminate end.
Qed.

Lemma SystemDialog_result_witness :
  fst (SystemDialog (fun _ _ => 256) (fun _ _ _ => ret SDR_OK) (mk_utils true)
         SDT_YES_NO "Quit" "Really quit?" (mk_world (fun _ => None) 0 0 [] []))
  = SDR_NO.
Proof.
  destruct (SystemDialog_result (fun _ _ => 256) (fun _ _ _ => ret SDR_OK)
              (mk_utils true) SDT_YES_NO "Quit" "Really quit?"
              (mk_world (fun _ => None) 0 0 [] []) eq_refl)
    as (command & _ & H & _).
  apply (H eq_refl). discriminate.
Defined.

(** ** Opening paths and web sites *)

(** C7.  [OpenPath] and [OpenWebsite] each run exactly one command, once, and
    return [false] exactly when its status is not 0, [true] when it is 0. *)
Theorem Open_result (wait_status : list string -> string -> Z) (s : string) (w : World) :
  let command := c_str ("xdg-open " ++ dquote ++ s ++ dquote) in
  let code := wait_status (commands w) command in
  (commands (snd (OpenPath wait_status s w)) = (commands w ++ [command])%list
   /\ (fst (OpenPath wait_status s w) = false <-> code <> 0)
   /\ (code = 0 -> fst (OpenPath wait_status s w) = true))
  /\ (commands (snd (OpenWebsite wait_status s w)) = (commands w ++ [command])%list
      /\ (fst (OpenWebsite wait_status s w) = false <-> code <> 0)
      /\ (code = 0 -> fst (OpenWebsite wait_status s w) = true)).
Proof.
  intros command code. unfold OpenPath, OpenWebsite, bind, system, log, ret.
  fold command. fold code.
  destruct (Z.eqb_spec code 0) as [E | E]; cbn [negb fst snd commands];
    repeat split; intros; try reflexivity; try congruence; try discriminate.
Qed.

(** C10.  [OpenPath(s)] and [OpenWebsite(s)] hand the same command line to
    [system], xdg-open followed by [s] between double quotes, and where that
    command gets the same status they return the same boolean; the log
    entries, when there are any, differ in the format string only. *)
Theorem OpenPath_OpenWebsite_equivalent
  (wait_status1 wait_status2 : list string -> string -> Z) (s : string)
  (w1 w2 : World) :
  let command := c_str ("xdg-open " ++ dquote ++ s ++ dquote) in
  wait_status1 (commands w1) command = wait_status2 (commands w2) command ->
  commands (snd (OpenPath wait_status1 s w1)) = (commands w1 ++ [command])%list
  /\ commands (snd (OpenWebsite wait_status2 s w2)) = (commands w2 ++ [command])%list
  /\ fst (OpenPath wait_status1 s w1) = fst (OpenWebsite wait_status2 s w2)
  /\ map (fun e => (level e, arguments e))
         (skipn (List.length (journal w1)) (journal (snd (OpenPath wait_status1 s w1))))
     = map (fun e => (level e, arguments e))
           (skipn (List.length (journal w2)) (journal (snd (OpenWebsite wait_status2 s w2)))).
Proof.
  intros command H. unfold OpenPath, OpenWebsite, bind, system, log, ret.
  fold command. rewrite H.
  assert (K : forall (l : list LogEntry) e, skipn (List.length l) (l ++ [e])%list = [e]).
  { intros l e. induction l as [ | x l IH ]; [reflexivity | exact IH]. }
  assert (K0 : forall (l : list LogEntry), skipn (List.length l) l = []).
  { intros l. induction l as [ | x l IH ]; [reflexivity | exact IH]. }
  destruct (wait_status2 (commands w2) command =? 0)%Z;
    cbn [negb fst snd commands journal]; rewrite ?K, ?K0; repeat split; reflexivity.
Qed.

Lemma OpenPath_OpenWebsite_equivalent_witness :
  fst (OpenPath (fun _ _ => 3) "/tmp/log.txt" (mk_world (fun _ => None) 0 0 [] []))
  = fst (OpenWebsite (fun _ _ => 3) "/tmp/log.txt"
           (mk_world (fun _ => None) 7 7 ["ls"] [])).
Proof.
  refine (proj1 (proj2 (proj2
            (OpenPath_OpenWebsite_equivalent (fun _ _ => 3) (fun _ _ => 3) "/tmp/log.txt"
               (mk_world (fun _ => None) 0 0 [] [])
               (mk_world (fun _ => None) 7 7 ["ls"] []) _)))).
  reflexivity.
Defined.

Local Close Scope string_scope.

(** * Further properties *)

(** ** Differences *)

Lemma wrap_opp (z : Z) :
  Int64.in_range z -> Int64.in_range (- z) -> Int64.wrap (- z) = - Int64.wrap z.
Proof. intros H1 H2. now rewrite !wrap_small. Qed.

(** X1.  [TimeStampExactDiff] of a time stamp with itself is 0 whatever its
    fields hold; swapping the arguments negates the result, and differences
    over adjacent intervals add up, as long as the exact differences fit in a
    [long long]. *)
Theorem TimeStampExactDiff_algebra (a b c : SystemTimeStamp) :
  TimeStampExactDiff a a = 0
  /\ (Int64.in_range (nanoseconds b - nanoseconds a) ->
      Int64.in_range (nanoseconds a - nanoseconds b) ->
      TimeStampExactDiff b a = - TimeStampExactDiff a b)
  /\ (Int64.in_range (nanoseconds b - nanoseconds a) ->
      Int64.in_range (nanoseconds c - nanoseconds b) ->
      Int64.in_range (nanoseconds c - nanoseconds a) ->
      TimeStampExactDiff a b + TimeStampExactDiff b c = TimeStampExactDiff a c).
Proof.
  rewrite !TimeStampExactDiff_nanoseconds. repeat split.
  - rewrite Z.sub_diag. reflexivity.
  - intros H1 H2. rewrite !wrap_small by assumption. ring.
  - intros H1 H2 H3. rewrite !wrap_small by assumption. ring.
Qed.

Lemma TimeStampExactDiff_algebra_witness :
  TimeStampExactDiff (stamp 9 1) (stamp 2 999999999)
  = - TimeStampExactDiff (stamp 2 999999999) (stamp 9 1)
  /\ TimeStampExactDiff (stamp 2 999999999) (stamp 9 1)
     + TimeStampExactDiff (stamp 9 1) (stamp 4 0)
     = TimeStampExactDiff (stamp 2 999999999) (stamp 4 0).
Proof.
  destruct (TimeStampExactDiff_algebra (stamp 2 999999999) (stamp 9 1) (stamp 4 0))
    as (_ & Hanti & Hadd).
  split.
  - apply Hanti; vm_compute; split; discriminate.
  - apply Hadd; vm_compute; split; discriminate.
Defined.

(** ** More on interpolation *)

Lemma scale_of_zero (i : Float32.float) :
  Float32.finite i = true -> scale 0 i = 0.
Proof. destruct i as [s | s | | s m e]; intros H; try discriminate; reflexivity. Qed.

(** X2.  An empty interval: interpolating between a normalized time stamp
    and itself gives that time stamp back for every finite fraction. *)
Theorem InterpolateTimeStamp_same (a : SystemTimeStamp) (i : Float32.float) :
  representable a -> normalized a -> Float32.finite i = true ->
  InterpolateTimeStamp a a i = a.
Proof.
  intros [Hs Hn] Ha Hi.
  assert (Hd : TimeStampExactDiff a a = 0)
    by (rewrite TimeStampExactDiff_nanoseconds, Z.sub_diag; reflexivity).
  pose proof (InterpolateTimeStamp_fields a a i) as F. cbv zeta in F.
  rewrite Hd, (scale_of_zero i Hi), Z.quot_0_l, Z.rem_0_l, !Z.add_0_r in F by lia.
  unfold normalized, NSEC_PER_SEC in Ha.
  rewrite F; [ | exact Ha | exact Hs | lia].
  destruct (Z.leb_spec 1000000000 (tv_nsec (clockTime a))); [lia | apply stamp_eta].
Qed.

Lemma InterpolateTimeStamp_same_witness :
  InterpolateTimeStamp (stamp 12 345) (stamp 12 345) Float32.three_halves = stamp 12 345.
Proof.
  apply InterpolateTimeStamp_same.
  - split; vm_compute; split; discriminate.
  - vm_compute. split; [discriminate | reflexivity].
  - reflexivity.
Defined.

(** X3.  Whatever [b] and the fraction are, the nanoseconds field that
    [InterpolateTimeStamp] stores for a normalized [a] never reaches 10^9 and
    never goes down to -10^9. *)
Theorem InterpolateTimeStamp_nsec_bounds (a b : SystemTimeStamp) (i : Float32.float) :
  normalized a ->
  - 1000000000 < tv_nsec (clockTime (InterpolateTimeStamp a b i)) < 1000000000.
Proof.
  intros Ha. unfold InterpolateTimeStamp.
  set (d := scale (TimeStampExactDiff a b) i).
  pose proof (proj1 (rem_bounds d)) as Hr.
  unfold normalized, NSEC_PER_SEC in Ha.
  unfold Int64.add, Int64.rem, Int64.sub.
  rewrite (wrap_small (tv_nsec (clockTime a) + Z.rem d 1000000000)) by range.
  destruct (Z.leb_spec 1000000000 (tv_nsec (clockTime a) + Z.rem d 1000000000));
    cbn [stamp clockTime tv_nsec].
  - rewrite wrap_small by range. lia.
  - lia.
Qed.

Lemma InterpolateTimeStamp_nsec_bounds_witness :
  - 1000000000
  < tv_nsec (clockTime (InterpolateTimeStamp (stamp 3 999999999) (stamp 0 5)
                          Float32.three_halves))
  < 1000000000.
Proof.
  apply InterpolateTimeStamp_nsec_bounds.
  vm_compute. split; [discriminate | reflexivity].
Defined.

(** X5.  The two operations compose: the difference from [a] to the time
    stamp interpolated from [a] is the delta the interpolation added, for a
    normalized [a] and a result whose seconds stay in 64-bit range. *)
Theorem TimeStampExactDiff_InterpolateTimeStamp
  (a b : SystemTimeStamp) (i : Float32.float) :
  normalized a ->
  Int64.min_signed
  <= tv_sec (clockTime a) + Z.quot (scale (TimeStampExactDiff a b) i) 1000000000
  < Int64.max_signed ->
  TimeStampExactDiff a (InterpolateTimeStamp a b i) = scale (TimeStampExactDiff a b) i.
Proof.
  intros Ha Hs. rewrite TimeStampExactDiff_nanoseconds.
  rewrite InterpolateTimeStamp_fields;
    [ | exact Ha | unfold Int64.in_range; lia | intros _; lia].
  pose proof (scale_in_range (TimeStampExactDiff a b) i) as Hd.
  pose proof (Z.quot_rem' (scale (TimeStampExactDiff a b) i) 1000000000) as E.
  set (d := scale (TimeStampExactDiff a b) i) in *.
  match goal with
  | |- Int64.wrap ?x = _ => replace x with d; [exact (wrap_small d Hd) | ]
  end.
  destruct (1000000000 <=? tv_nsec (clockTime a) + Z.rem d 1000000000);
    unfold nanoseconds, NSEC_PER_SEC; simpl; lia.
Qed.

Lemma TimeStampExactDiff_InterpolateTimeStamp_witness :
  TimeStampExactDiff (stamp 2 900000000)
    (InterpolateTimeStamp (stamp 2 900000000) (stamp 5 0) Float32.half)
  = scale (TimeStampExactDiff (stamp 2 900000000) (stamp 5 0)) Float32.half.
Proof.
  apply TimeStampExactDiff_InterpolateTimeStamp.
  - vm_compute. split; [discriminate | reflexivity].
  - vm_compute. split; [discriminate | reflexivity].
Defined.

(** ** Start-up and dialogs *)

Local Open Scope string_scope.

Lemma skipn_length_app {A : Type} (l l' : list A) :
  skipn (List.length l) (l ++ l')%list = l'.
Proof. induction l as [ | x l IH ]; [reflexivity | exact IH]. Qed.

Lemma skipn_length_all {A : Type} (l : list A) : skipn (List.length l) l = [].
Proof. induction l as [ | x l IH ]; [reflexivity | exact IH]. Qed.

(** X6.  [Init] runs the zenity probe, and nothing else; the availability
    flag is set exactly when the probe reports status 0, and a warning, only
    a warning, is logged exactly when it does not. *)
Theorem Init_probe (wait_status : list string -> string -> Z) (w : World) :
  let probe := "zenity --version 1> /dev/null 2> /dev/null" in
  let code := wait_status (commands w) probe in
  let r := Init wait_status w in
  commands (snd r) = (commands w ++ [probe])%list
  /\ (m_zenityAvailable (fst r) = true <-> code = 0)
  /\ (code = 0 -> logged w r = [])
  /\ (code <> 0 -> exists e, logged w r = [e] /\ level e = Warn).
Proof.
  cbv zeta. unfold Init, bind, system, log, ret, logged.
  change (c_str "zenity --version 1> /dev/null 2> /dev/null")
    with "zenity --version 1> /dev/null 2> /dev/null".
  destruct (Z.eqb_spec (wait_status (commands w)
                          "zenity --version 1> /dev/null 2> /dev/null") 0) as [E | E];
    cbn [negb fst snd commands journal m_zenityAvailable];
    rewrite ?skipn_length_app, ?skipn_length_all;
    repeat split; intros; try reflexivity; try congruence; try discriminate.
  eexists. split; reflexivity.
Qed.

(** X7.  Start-up and dialog together.  When the probe of [Init] fails, a
    later [SystemDialog] is the console dialog of the base class, and zenity
    is never run; when it succeeds, the dialog runs one more command, a
    zenity command line. *)
Theorem Init_then_SystemDialog
  (wait_status : list string -> string -> Z)
  (ConsoleSystemDialog : SystemDialogType -> string -> string -> M SystemDialogResult)
  (type : SystemDialogType) (title message : string) (w : World) :
  let probe := "zenity --version 1> /dev/null 2> /dev/null" in
  let this := fst (Init wait_status w) in
  let w1 := snd (Init wait_status w) in
  (wait_status (commands w) probe <> 0 ->
   SystemDialog wait_status ConsoleSystemDialog this type title message w1
   = ConsoleSystemDialog type title message w1)
  /\ (wait_status (commands w) probe = 0 ->
      exists command,
        commands (snd (SystemDialog wait_status ConsoleSystemDialog this type
                         title message w1))
        = (commands w ++ [probe; command])%list
        /\ prefix "zenity " command = true).
Proof.
  cbv zeta. unfold Init, bind, system, log, ret.
  change (c_str "zenity --version 1> /dev/null 2> /dev/null")
    with "zenity --version 1> /dev/null 2> /dev/null".
  destruct (Z.eqb_spec (wait_status (commands w)
                          "zenity --version 1> /dev/null 2> /dev/null") 0) as [E | E];
    cbn [negb fst snd]; split; intros H; try congruence.
  - unfold SystemDialog, bind, system, ret. cbn [m_zenityAvailable negb fst snd commands].
    eexists. split.
    + rewrite <- app_assoc. reflexivity.
    + destruct type; reflexivity.
  - reflexivity.
Qed.

(** ** More on the environment and the save directory *)

Lemma c_str_cut (name rest : string) :
  c_str (name ++ String (ascii_of_nat 0) rest) = c_str name.
Proof.
  induction name as [ | c name IH ]; simpl.
  - reflexivity.
  - destruct (Ascii.eqb c (ascii_of_nat 0)); [reflexivity | now rewrite IH].
Qed.

(** X9.  [GetEnvVar] hands [name.c_str()] to [getenv], so whatever follows a
    NUL character in the name is ignored: result and log are those of the
    part before it.  For a name without NUL the result is the value the
    environment holds for that very name, or the empty string. *)
Theorem GetEnvVar_name_cut (name rest : string) (w : World) :
  GetEnvVar (name ++ String (ascii_of_nat 0) rest) w = GetEnvVar name w
  /\ (has_nul name = false ->
      fst (GetEnvVar name w) = env_value (environ w) name).
Proof.
  split.
  - unfold GetEnvVar. rewrite c_str_cut. reflexivity.
  - intros H. rewrite GetEnvVar_value, (c_str_no_nul name H). reflexivity.
Qed.

Lemma GetEnvVar_name_cut_witness :
  fst (GetEnvVar "HOME"
         (mk_world (fun n => if n =? "HOME" then Some "/home/robot" else None) 0 0 [] []))
  = env_value (fun n => if n =? "HOME" then Some "/home/robot" else None) "HOME".
Proof.
  apply (proj2 (GetEnvVar_name_cut "HOME" "ignored"
                  (mk_world (fun n => if n =? "HOME" then Some "/home/robot" else None)
                            0 0 [] []))).
  reflexivity.
Defined.

(** X8.  What [GetSaveDir] leaves behind.  It never runs a command and never
    changes the environment.  In a portable or development build it logs
    nothing.  Otherwise the last entry it logs is the trace of the directory
    it returns, and it logs a warning exactly when neither XDG_DATA_HOME nor
    HOME gave a directory. *)
Theorem GetSaveDir_log (PORTABLE_SAVES DEV_BUILD : bool) (builtin : string) (w : World) :
  let r := GetSaveDir PORTABLE_SAVES DEV_BUILD builtin w in
  commands (snd r) = commands w
  /\ environ (snd r) = environ w
  /\ (PORTABLE_SAVES || DEV_BUILD = true -> logged w r = [])
  /\ (PORTABLE_SAVES || DEV_BUILD = false ->
      last (logged w r) (mk_entry Error EmptyString [])
      = mk_entry Trace ("Saved game files are going to %s" ++ nl)
                 [ArgString (c_str (fst r))]
      /\ existsb is_warn (logged w r)
         = empty (env_value (environ w) "XDG_DATA_HOME")
           && empty (env_value (environ w) "HOME")).
Proof.
  cbv zeta. unfold GetSaveDir.
  destruct (PORTABLE_SAVES || DEV_BUILD).
  - unfold ret, logged. cbn [fst snd]. rewrite skipn_length_all.
    repeat split; intros; try reflexivity; discriminate.
  - unfold GetEnvVar, bind, getenv, log, ret, logged, env_value.
    change (c_str "XDG_DATA_HOME") with "XDG_DATA_HOME".
    change (c_str "HOME") with "HOME".
    destruct (environ w "XDG_DATA_HOME") as [[ | c1 r1] | ];
      cbn [fst snd commands environ journal empty];
      try (destruct (environ w "HOME") as [[ | c2 r2] | ];
           cbn [fst snd commands environ journal empty]);
      rewrite <- ?app_assoc, ?skipn_length_app;
      repeat split; intros; try reflexivity; try discriminate.
Qed.

Lemma GetSaveDir_log_witness :
  existsb is_warn
    (logged (mk_world (fun _ => None) 0 0 [] [])
            (GetSaveDir false false "./saves" (mk_world (fun _ => None) 0 0 [] [])))
  = true.
Proof.
  apply (proj2 (proj2 (proj2 (proj2
           (GetSaveDir_log false false "./saves" (mk_world (fun _ => None) 0 0 [] []))))
           eq_refl)).
Defined.

(** ** More on opening paths and web sites *)

(** X10.  The log of the two launchers: nothing is logged when the command
    reports status 0; otherwise exactly one entry, at error level, carrying
    the path or URL and the status. *)
Theorem Open_log (wait_status : list string -> string -> Z) (s : string) (w : World) :
  let code := wait_status (commands w) (c_str ("xdg-open " ++ dquote ++ s ++ dquote)) in
  (code = 0 ->
   logged w (OpenPath wait_status s w) = []
   /\ logged w (OpenWebsite wait_status s w) = [])
  /\ (code <> 0 ->
      logged w (OpenPath wait_status s w)
      = [mk_entry Error ("Failed to open path: %s, error code: %i" ++ nl)
                  [ArgString (c_str s); ArgInt code]]
      /\ logged w (OpenWebsite wait_status s w)
         = [mk_entry Error ("Failed to open website: %s, error code: %i" ++ nl)
                     [ArgString (c_str s); ArgInt code]]).
Proof.
  cbv zeta. unfold OpenPath, OpenWebsite, bind, system, log, ret, logged.
  destruct (Z.eqb_spec
              (wait_status (commands w) (c_str ("xdg-open " ++ dquote ++ s ++ dquote))) 0)
    as [E | E];
    cbn [negb fst snd journal]; rewrite ?skipn_length_app, ?skipn_length_all;
    split; intros H; try congruence; split; reflexivity.
Qed.

Lemma Open_log_witness :
  logged (mk_world (fun _ => None) 0 0 [] [])
         (OpenPath (fun _ _ => 768) "/no/such" (mk_world (fun _ => None) 0 0 [] []))
  = [mk_entry Error ("Failed to open path: %s, error code: %i" ++ nl)
              [ArgString "/no/such"; ArgInt 768]].
Proof.
  refine (proj1 (proj2 (Open_log (fun _ _ => 768) "/no/such"
                          (mk_world (fun _ => None) 0 0 [] [])) _)).
  discriminate.
Defined.

Local Close Scope string_scope.

(** ** Magnitude of rounded numbers *)

Lemma Zdigits2_mono (a b : Z) : 0 <= a <= b -> Zdigits2 a <= Zdigits2 b.
Proof.
  intros [Ha Hab]. destruct a as [ | p | p ]; [apply Zdigits2_nonneg | | lia].
  destruct b as [ | q | q ]; try lia.
  rewrite !Zdigits2_log2. pose proof (Z.log2_le_mono (Zpos p) (Zpos q) Hab). lia.
Qed.

Lemma Zdigits2_succ (a : Z) : 0 <= a -> Zdigits2 (a + 1) <= Zdigits2 a + 1.
Proof.
  intros Ha. destruct a as [ | p | p ]; [simpl; lia | | lia].
  change (Zpos p + 1) with (Zpos (p + 1)). rewrite !Zdigits2_log2.
  pose proof (Z.log2_succ_le (Zpos p)).
  replace (Z.succ (Zpos p)) with (Zpos (p + 1)) in * by lia. lia.
Qed.

Lemma Zdigits2_mul (p q : positive) :
  Zdigits2 (Zpos (p * q)) <= Zdigits2 (Zpos p) + Zdigits2 (Zpos q).
Proof.
  rewrite !Zdigits2_log2, Pos2Z.inj_mul.
  pose proof (Z.log2_mul_above (Zpos p) (Zpos q)). lia.
Qed.

Lemma shr_1_digits (mrs : shr_record) :
  0 <= shr_m mrs ->
  Zdigits2 (shr_m (shr_1 mrs)) = Z.max 0 (Zdigits2 (shr_m mrs) - 1).
Proof.
  destruct mrs as [m r s]. simpl shr_m. intros Hm.
  destruct m as [ | [p | p | ] | p ]; cbn [shr_1 shr_m Zdigits2 digits2_pos];
    rewrite ?Pos2Z.inj_succ; lia.
Qed.

Lemma iter_shr_1_digits (n : positive) (mrs : shr_record) :
  0 <= shr_m mrs ->
  Zdigits2 (shr_m (iter_pos shr_1 n mrs)) = Z.max 0 (Zdigits2 (shr_m mrs) - Zpos n).
Proof.
  intros Hm. rewrite iter_pos_iter.
  induction n as [ | n IH ] using Pos.peano_ind.
  - simpl Pos.iter. now apply shr_1_digits.
  - rewrite Pos.iter_succ, shr_1_digits.
    + rewrite IH. lia.
    + pose proof (iter_shr_1_bounds n mrs Hm) as H. rewrite iter_pos_iter in H. lia.
Qed.

(** A rounding shift does not raise the position of the leading bit above
    where it was, or above the smallest exponent of the format. *)
Lemma shr_fexp_digits (m e : Z) (l : location) :
  0 <= m ->
  Zdigits2 (shr_m (fst (shr_fexp Float32.prec Float32.emax m e l)))
  + snd (shr_fexp Float32.prec Float32.emax m e l)
  <= Z.max (Zdigits2 m + e) (-149).
Proof.
  intros Hm. unfold shr_fexp, shr.
  pose proof (Zdigits2_nonneg m) as Hd.
  destruct (fexp Float32.prec Float32.emax (Zdigits2 m + e) - e) as [ | n | n ] eqn:E;
    cbn [fst snd]; rewrite ?shr_m_of_loc; try lia.
  rewrite iter_shr_1_digits by (rewrite shr_m_of_loc; exact Hm).
  rewrite shr_m_of_loc.
  unfold fexp, emin, Float32.prec, Float32.emax in E. lia.
Qed.

(** Rounding keeps the sign, and raises the position of the leading bit by
    one at most. *)
Lemma binary_round_aux_magnitude (sx : bool) (mx ex : Z) (lx : location) :
  0 <= mx -> ex <= 104 -> Zdigits2 mx + ex <= 127 ->
  match binary_round_aux Float32.prec Float32.emax sx mx ex lx with
  | S754_zero _ => True
  | S754_finite s m e =>
      s = sx /\ Zpos (digits2_pos m) + e <= Z.max (Zdigits2 mx + ex) (-149) + 1
  | _ => False
  end.
Proof.
  intros Hm He Hd. unfold binary_round_aux.
  pose proof (shr_fexp_bounds mx ex lx Hm) as [Hm1 He1].
  pose proof (shr_fexp_digits mx ex lx Hm) as Hd1.
  destruct (shr_fexp Float32.prec Float32.emax mx ex lx) as [mrs1 e1].
  cbn [fst snd] in Hm1, He1, Hd1.
  pose proof (round_nearest_even_bounds (shr_m mrs1) (loc_of_shr_record mrs1) (proj1 Hm1))
    as Hr.
  set (m1 := round_nearest_even (shr_m mrs1) (loc_of_shr_record mrs1)) in *.
  assert (Hm1' : 0 <= m1) by lia.
  assert (Hdm1 : Zdigits2 m1 <= Zdigits2 (shr_m mrs1) + 1).
  { pose proof (Zdigits2_mono m1 (shr_m mrs1 + 1)) as H1.
    pose proof (Zdigits2_succ (shr_m mrs1)) as H2. lia. }
  pose proof (shr_fexp_bounds m1 e1 loc_Exact Hm1') as [Hm2 He2].
  pose proof (shr_fexp_digits m1 e1 loc_Exact Hm1') as Hd2.
  destruct (shr_fexp Float32.prec Float32.emax m1 e1 loc_Exact) as [mrs2 e2].
  cbn [fst snd] in Hm2, He2, Hd2.
  pose proof (Zdigits2_nonneg mx). pose proof (Zdigits2_nonneg m1).
  pose proof (Zdigits2_nonneg (shr_m mrs1)).
  destruct (shr_m mrs2) as [ | m2 | m2 ]; [exact I | | lia].
  change (Zdigits2 (Zpos m2)) with (Zpos (digits2_pos m2)) in Hd2.
  unfold fexp, emin, Float32.prec, Float32.emax in *.
  destruct (Z.leb_spec e2 (128 - 24)); [split; [reflexivity | lia] | lia].
Qed.

Lemma digits_below (p : positive) (k : Z) :
  Zpos p < 2 ^ k -> 0 <= k -> Zpos (digits2_pos p) <= k.
Proof.
  intros Hp Hk. pose proof (Zpos_ge_pow2_digits p) as Hge.
  destruct (Z.le_gt_cases (Zpos (digits2_pos p)) k) as [H | H]; [exact H | exfalso].
  assert (2 ^ k <= 2 ^ (Zpos (digits2_pos p) - 1)) by (apply Z.pow_le_mono_r; lia).
  lia.
Qed.

Lemma of_int64_below (n : Z) :
  0 <= n < 2 ^ 60 -> nonneg_below 61 (Float32.of_int64 n).
Proof.
  intros Hn. unfold Float32.of_int64, binary_normalize.
  destruct n as [ | p | p ]; [exact I | | lia].
  pose proof (digits_below p 60 (proj2 Hn)) as Hd.
  unfold binary_round. rewrite shl_align_int.
  destruct (Z.ltb_spec (Zpos (digits2_pos p)) 24) as [Hlt | Hge].
  - set (k := Z.to_pos (24 - Zpos (digits2_pos p))).
    assert (Hk : Zpos k = 24 - Zpos (digits2_pos p)) by (unfold k; rewrite Z2Pos.id; lia).
    pose proof (binary_round_aux_magnitude false (Zpos (Pos.iter xO p k))
                  (Zpos (digits2_pos p) - 24) loc_Exact) as H.
    change (Zdigits2 (Zpos (Pos.iter xO p k)))
      with (Zpos (digits2_pos (Pos.iter xO p k))) in H.
    rewrite digits2_pos_iter_xO in H.
    specialize (H ltac:(lia) ltac:(lia) ltac:(lia)).
    unfold nonneg_below.
    destruct (binary_round_aux Float32.prec Float32.emax false
                (Zpos (Pos.iter xO p k)) (Zpos (digits2_pos p) - 24) loc_Exact);
      try exact H. split; [apply H | lia].
  - pose proof (binary_round_aux_magnitude false (Zpos p) 0 loc_Exact) as H.
    change (Zdigits2 (Zpos p)) with (Zpos (digits2_pos p)) in H.
    specialize (H ltac:(lia) ltac:(lia) ltac:(lia)).
    unfold nonneg_below.
    destruct (binary_round_aux Float32.prec Float32.emax false (Zpos p) 0 loc_Exact);
      try exact H. split; [apply H | lia].
Qed.

Lemma unit_fraction_digits (m : positive) (e : Z) :
  unit_fraction (S754_finite false m e) = true -> e <= 0 /\ Zpos (digits2_pos m) + e <= 1.
Proof.
  unfold unit_fraction. intros H. apply andb_prop in H. destruct H as [He Hm].
  apply Z.leb_le in He. apply Z.leb_le in Hm. split; [exact He | ].
  pose proof (Zdigits2_le (Zpos m) (- e)) as H. simpl Zdigits2 in H. lia.
Qed.

Lemma mul_below (x i : Float32.float) :
  nonneg_below 61 x -> unit_fraction i = true -> nonneg_below 63 (Float32.mul x i).
Proof.
  intros Hx Hi.
  destruct x as [sx | sx | | sx mx ex]; try contradiction;
    destruct i as [si | si | | si mi ei]; try discriminate; try exact I.
  destruct Hx as [-> Hx]. destruct si; [discriminate | ].
  destruct (unit_fraction_digits mi ei Hi) as [Hei Hdi].
  unfold Float32.mul, SFmul. cbn [xorb].
  pose proof (binary_round_aux_magnitude false (Zpos (mx * mi)) (ex + ei) loc_Exact) as H.
  pose proof (Zdigits2_mul mx mi) as Hmul. simpl Zdigits2 in Hmul.
  change (Zdigits2 (Zpos (mx * mi))) with (Zpos (digits2_pos (mx * mi))) in H.
  specialize (H ltac:(lia) ltac:(lia) ltac:(lia)).
  unfold nonneg_below.
  destruct (binary_round_aux Float32.prec Float32.emax false (Zpos (mx * mi)) (ex + ei)
              loc_Exact); try exact H.
  split; [apply H | lia].
Qed.

Lemma to_int64_below (y : Float32.float) :
  nonneg_below 63 y -> 0 <= Float32.to_int64 y.
Proof.
  destruct y as [s | s | | s m e]; try contradiction; [intros _; simpl; lia | ].
  intros [-> Hd]. unfold Float32.to_int64. cbn [cond_Zopp].
  pose proof (Zpos_lt_pow2_digits m) as Hm.
  assert (H0 : 0 <= Z.shiftl (Zpos m) e) by (apply Z.shiftl_nonneg; lia).
  assert (H1 : Z.shiftl (Zpos m) e < 2 ^ 63).
  { destruct (Z.le_gt_cases 0 e) as [He | He].
    - rewrite Z.shiftl_mul_pow2 by exact He.
      apply Z.lt_le_trans with (2 ^ Zpos (digits2_pos m) * 2 ^ e).
      + apply Z.mul_lt_mono_pos_r; [apply Z.pow_pos_nonneg; lia | exact Hm].
      + rewrite <- Z.pow_add_r by lia. apply Z.pow_le_mono_r; lia.
    - replace e with (- (- e)) by lia.
      rewrite Z.shiftl_opp_r, Z.shiftr_div_pow2 by lia.
      apply Z.div_lt_upper_bound; [apply Z.pow_pos_nonneg; lia | ].
      apply Z.lt_le_trans with (2 ^ Zpos (digits2_pos m)); [exact Hm | ].
      rewrite <- Z.pow_add_r by lia. apply Z.pow_le_mono_r; lia. }
  replace ((Int64.min_signed <=? Z.shiftl (Zpos m) e)
           && (Z.shiftl (Zpos m) e <=? Int64.max_signed)) with true; [exact H0 | ].
  symmetry. apply andb_true_intro.
  split; apply Z.leb_le; unfold Int64.min_signed, Int64.max_signed; lia.
Qed.

(** For a difference from 0 up to 2^60 ns and a fraction between 0 and 1 the
    delta is not negative: nothing overflows on the way. *)
Lemma scale_unit_nonneg (n : Z) (i : Float32.float) :
  0 <= n < 2 ^ 60 -> unit_fraction i = true -> 0 <= scale n i.
Proof.
  intros Hn Hi. unfold scale.
  apply to_int64_below, mul_below; [apply of_int64_below; exact Hn | exact Hi].
Qed.

(** X4.  The intended use: [a] normalized, [b] not earlier than [a] and
    less than 2^60 ns after it, a fraction between 0 and 1.  Then the result
    is a normalized time stamp and it is not earlier than [a]. *)
Theorem InterpolateTimeStamp_forward (a b : SystemTimeStamp) (i : Float32.float) :
  normalized a ->
  Int64.min_signed <= tv_sec (clockTime a) < 2 ^ 62 ->
  0 <= TimeStampExactDiff a b < 2 ^ 60 ->
  unit_fraction i = true ->
  normalized (InterpolateTimeStamp a b i)
  /\ nanoseconds a <= nanoseconds (InterpolateTimeStamp a b i).
Proof.
  intros Ha Hs Hd Hi.
  pose proof (scale_unit_nonneg _ i Hd Hi) as H0.
  split; [now apply InterpolateTimeStamp_normalized_forward | ].
  pose proof (scale_in_range (TimeStampExactDiff a b) i) as Hr.
  pose proof (Z.quot_rem' (scale (TimeStampExactDiff a b) i) 1000000000) as E.
  pose proof (rem_bounds (scale (TimeStampExactDiff a b) i)) as (Hb & Hb0 & _).
  specialize (Hb0 H0).
  set (d := scale (TimeStampExactDiff a b) i) in *.
  assert (Hq : 0 <= Z.quot d 1000000000 < 2 ^ 34).
  { unfold Int64.in_range, Int64.min_signed, Int64.max_signed in Hr. lia. }
  rewrite InterpolateTimeStamp_fields; fold d;
    [ | exact Ha | range | intros _; unfold Int64.max_signed; lia].
  destruct (1000000000 <=? tv_nsec (clockTime a) + Z.rem d 1000000000);
    unfold nanoseconds, NSEC_PER_SEC; simpl; lia.
Qed.

Lemma InterpolateTimeStamp_forward_witness :
  normalized (InterpolateTimeStamp (stamp 7 999999999) (stamp 9 250) Float32.half)
  /\ nanoseconds (stamp 7 999999999)
     <= nanoseconds (InterpolateTimeStamp (stamp 7 999999999) (stamp 9 250) Float32.half).
Proof.
  apply InterpolateTimeStamp_forward.
  - vm_compute. split; [discriminate | reflexivity].
  - vm_compute. split; [discriminate | reflexivity].
  - vm_compute. split; [discriminate | reflexivity].
  - reflexivity.
Defined.

(** ** The operations of the code against round-to-nearest *)

Lemma shr_1_spec (m : Z) (r s : bool) :
  0 <= m ->
  shr_1 (Build_shr_record m r s) = Build_shr_record (Z.div2 m) (Z.odd m) (r || s).
Proof. intros Hm. destruct m as [ | [p | p | ] | p ]; try reflexivity. lia. Qed.

Lemma mod_pow2_succ (m k : Z) :
  0 <= k ->
  m mod 2 ^ (k + 1) = m mod 2 ^ k + 2 ^ k * (if Z.odd (m / 2 ^ k) then 1 else 0).
Proof.
  intros Hk. rewrite Z.pow_add_r, Z.pow_1_r by lia.
  assert (Hp : 0 < 2 ^ k) by (apply Z.pow_pos_nonneg; lia).
  rewrite Z.rem_mul_r by lia. rewrite Zmod_odd. reflexivity.
Qed.

(** [k] right shifts of an exact record: the quotient, the last bit shifted
    out, and whether anything was shifted out below it. *)
Lemma iter_shr_1_spec (k : positive) (m : Z) :
  0 <= m ->
  iter_pos shr_1 k (Build_shr_record m false false)
  = Build_shr_record (m / 2 ^ Zpos k) (Z.odd (m / 2 ^ (Zpos k - 1)))
                     (negb (m mod 2 ^ (Zpos k - 1) =? 0)).
Proof.
  intros Hm. rewrite iter_pos_iter.
  induction k as [ | k IH ] using Pos.peano_ind.
  - cbn [Pos.iter]. rewrite shr_1_spec by exact Hm.
    change (Zpos 1 - 1) with 0. rewrite Z.pow_0_r, Z.div_1_r, Z.mod_1_r, Z.div2_div.
    reflexivity.
  - rewrite Pos.iter_succ, IH, shr_1_spec
      by (apply Z.div_pos; [exact Hm | apply Z.pow_pos_nonneg; lia]).
    rewrite Pos2Z.inj_succ.
    replace (Z.succ (Zpos k) - 1) with (Zpos k) by lia.
    f_equal.
    + rewrite Z.div2_div, Z.pow_succ_r, (Z.mul_comm 2) by lia.
      rewrite Z.div_div by (try apply Z.pow_pos_nonneg; try apply Z.pow_nonzero; lia).
      reflexivity.
    + pose proof (mod_pow2_succ m (Zpos k - 1) ltac:(lia)) as H.
      replace (Zpos k - 1 + 1) with (Zpos k) in H by lia.
      assert (Hp : 0 < 2 ^ (Zpos k - 1)) by (apply Z.pow_pos_nonneg; lia).
      pose proof (Z.mod_pos_bound m (2 ^ (Zpos k - 1)) Hp) as Hb.
      rewrite H.
      destruct (Z.odd (m / 2 ^ (Zpos k - 1))); simpl orb.
      * symmetry. apply negb_true_iff, Z.eqb_neq. lia.
      * rewrite Z.mul_0_r, Z.add_0_r. reflexivity.
Qed.

(** Rounding the shifted record to nearest even is [round_half_even]. *)
Lemma round_after_shift (k : positive) (m : Z) :
  0 <= m ->
  round_nearest_even (m / 2 ^ Zpos k)
    (loc_of_shr_record
       (Build_shr_record (m / 2 ^ Zpos k) (Z.odd (m / 2 ^ (Zpos k - 1)))
                         (negb (m mod 2 ^ (Zpos k - 1) =? 0))))
  = round_half_even m (Zpos k).
Proof.
  intros Hm. unfold round_half_even.
  pose proof (mod_pow2_succ m (Zpos k - 1) ltac:(lia)) as H.
  replace (Zpos k - 1 + 1) with (Zpos k) in H by lia.
  assert (Hp : 0 < 2 ^ (Zpos k - 1)) by (apply Z.pow_pos_nonneg; lia).
  assert (H2 : 2 ^ Zpos k = 2 * 2 ^ (Zpos k - 1)).
  { rewrite <- Z.pow_succ_r by lia. f_equal. lia. }
  pose proof (Z.mod_pos_bound m (2 ^ (Zpos k - 1)) Hp) as Hb.
  rewrite H. clear H.
  set (q := m / 2 ^ Zpos k). set (low := m mod 2 ^ (Zpos k - 1)) in *.
  rewrite H2. set (P := 2 ^ (Zpos k - 1)) in *.
  destruct (Z.odd (m / P)).
  - destruct (Z.eqb_spec low 0) as [E | E]; simpl negb; simpl loc_of_shr_record;
      simpl round_nearest_even.
    + replace (2 * (low + P * 1) <? 2 * P) with false by (symmetry; apply Z.ltb_ge; lia).
      replace (2 * P <? 2 * (low + P * 1)) with false by (symmetry; apply Z.ltb_ge; lia).
      reflexivity.
    + replace (2 * (low + P * 1) <? 2 * P) with false by (symmetry; apply Z.ltb_ge; lia).
      replace (2 * P <? 2 * (low + P * 1)) with true by (symmetry; apply Z.ltb_lt; lia).
      reflexivity.
  - replace (2 * (low + P * 0) <? 2 * P) with true by (symmetry; apply Z.ltb_lt; lia).
    destruct (low =? 0); reflexivity.
Qed.

Lemma fexp_single (x : Z) :
  fexp Float32.prec Float32.emax x = Z.max (x - 24) (-149).
Proof. reflexivity. Qed.

Lemma round_half_even_0 (m : Z) : round_half_even m 0 = m.
Proof.
  unfold round_half_even. rewrite Z.pow_0_r, Z.div_1_r, Z.mod_1_r. reflexivity.
Qed.

Lemma round_half_even_bounds (m k : Z) :
  m / 2 ^ k <= round_half_even m k <= m / 2 ^ k + 1.
Proof.
  unfold round_half_even.
  destruct (2 * (m mod 2 ^ k) <? 2 ^ k); [lia | ].
  destruct (2 ^ k <? 2 * (m mod 2 ^ k)); [lia | ].
  destruct (Z.even (m / 2 ^ k)); lia.
Qed.

(** The rounding step of the library, on an exact input, is rounding to the
    nearest single-precision number, ties to even. *)
Lemma binary_round_aux_nearest (s : bool) (m : positive) (e : Z) :
  binary_round_aux Float32.prec Float32.emax s (Zpos m) e loc_Exact
  = nearest_float s (Zpos m) e.
Proof.
  unfold nearest_float, ulp_exponent. rewrite <- Zdigits2_log2.
  pose proof (Zpos_lt_pow2_digits m) as Hm.
  change (Zpos (digits2_pos m)) with (Zdigits2 (Zpos m)) in Hm.
  assert (Hd : 0 < Zdigits2 (Zpos m)) by (simpl; lia).
  set (d := Zdigits2 (Zpos m)) in *.
  unfold binary_round_aux. unfold shr_fexp at 1. fold d. rewrite fexp_single. unfold shr.
  change (Float32.emax - Float32.prec) with 104.
  destruct (Z.max (d + e - 24) (-149) - e) as [ | k | k ] eqn:E.
  - (* no shift *)
    cbn [shr_record_of_loc shr_m loc_of_shr_record round_nearest_even].
    unfold shr_fexp. fold d. rewrite fexp_single, E. cbn [shr shr_record_of_loc shr_m].
    replace (Z.max e (Z.max (d + e - 24) (-149))) with e by lia.
    rewrite Z.sub_diag, round_half_even_0.
    assert (H24 : Zpos m < 2 ^ 24).
    { apply Z.lt_le_trans with (2 ^ d); [exact Hm | apply Z.pow_le_mono_r; lia]. }
    destruct (Z.eqb_spec (Zpos m) (2 ^ 24)); [lia | reflexivity].
  - (* shift by k *)
    replace (Z.max e (Z.max (d + e - 24) (-149))) with (e + Zpos k) by lia.
    replace (e + Zpos k - e) with (Zpos k) by lia.
    change (shr_record_of_loc (Zpos m) loc_Exact)
      with (Build_shr_record (Zpos m) false false).
    rewrite iter_shr_1_spec by lia. cbn [shr_m].
    rewrite round_after_shift by lia.
    pose proof (round_half_even_bounds (Zpos m) (Zpos k)) as Hb.
    assert (Hq : 0 <= Zpos m / 2 ^ Zpos k < 2 ^ 24).
    { split; [apply Z.div_pos; [lia | apply Z.pow_pos_nonneg; lia] | ].
      apply Z.div_lt_upper_bound; [apply Z.pow_pos_nonneg; lia | ].
      rewrite <- Z.pow_add_r by lia.
      apply Z.lt_le_trans with (2 ^ d); [exact Hm | apply Z.pow_le_mono_r; lia]. }
    destruct (round_half_even (Zpos m) (Zpos k)) as [ | p | p ]; [ | | lia].
    + unfold shr_fexp. cbn [Zdigits2]. rewrite fexp_single.
      destruct (Z.max (0 + (e + Zpos k) - 24) (-149) - (e + Zpos k)) eqn:E2;
        try lia; reflexivity.
    + destruct (Z.eqb_spec (Zpos p) (2 ^ 24)) as [E24 | N24].
      * change (2 ^ 24) with (Zpos 16777216) in E24. injection E24 as ->.
        unfold shr_fexp. change (Zdigits2 (Zpos 16777216)) with 25.
        rewrite fexp_single.
        replace (Z.max (25 + (e + Zpos k) - 24) (-149) - (e + Zpos k)) with 1 by lia.
        reflexivity.
      * assert (Hp : Zpos (digits2_pos p) <= 24) by (apply digits_below; lia).
        unfold shr_fexp. cbn [Zdigits2]. rewrite fexp_single.
        destruct (Z.max (Zpos (digits2_pos p) + (e + Zpos k) - 24) (-149) - (e + Zpos k))
          eqn:E2; try lia; reflexivity.
  - (* no shift *)
    cbn [shr_record_of_loc shr_m loc_of_shr_record round_nearest_even].
    unfold shr_fexp. fold d. rewrite fexp_single, E. cbn [shr shr_record_of_loc shr_m].
    replace (Z.max e (Z.max (d + e - 24) (-149))) with e by lia.
    rewrite Z.sub_diag, round_half_even_0.
    assert (H24 : Zpos m < 2 ^ 24).
    { apply Z.lt_le_trans with (2 ^ d); [exact Hm | apply Z.pow_le_mono_r; lia]. }
    destruct (Z.eqb_spec (Zpos m) (2 ^ 24)); [lia | reflexivity].
Qed.

(** [round_half_even] does what its name says: the result is within half a
    unit of [m / 2 ^ k], and even when it is exactly half a unit away. *)
Lemma round_half_even_nearest (m k : Z) :
  0 <= k ->
  2 * Z.abs (round_half_even m k * 2 ^ k - m) <= 2 ^ k
  /\ (2 * Z.abs (round_half_even m k * 2 ^ k - m) = 2 ^ k ->
      Z.even (round_half_even m k) = true).
Proof.
  intros Hk. unfold round_half_even.
  assert (Hp : 0 < 2 ^ k) by (apply Z.pow_pos_nonneg; lia).
  pose proof (Z.div_mod m (2 ^ k) ltac:(lia)) as E.
  pose proof (Z.mod_pos_bound m (2 ^ k) Hp) as Hb.
  set (q := m / 2 ^ k) in *. set (r := m mod 2 ^ k) in *. set (P := 2 ^ k) in *.
  destruct (Z.ltb_spec (2 * r) P) as [H1 | H1]; [split; nia | ].
  destruct (Z.ltb_spec P (2 * r)) as [H2 | H2]; [split; nia | ].
  destruct (Z.even q) eqn:Ev.
  - split; [nia | intros _; exact Ev].
  - split; [nia | intros _].
    rewrite Z.add_1_r, Z.even_succ, <- Z.negb_even, Ev. reflexivity.
Qed.

Lemma of_int64_nearest (n : Z) : Float32.of_int64 n = round_to_float n.
Proof.
  assert (H : forall s p,
            binary_round Float32.prec Float32.emax s p 0
            = nearest_float s (Zpos p * 2 ^ Z.max 0 (24 - (Z.log2 (Zpos p) + 1)))
                            (- Z.max 0 (24 - (Z.log2 (Zpos p) + 1)))).
  { intros s p. unfold binary_round. rewrite shl_align_int, <- Zdigits2_log2.
    change (Zdigits2 (Zpos p)) with (Zpos (digits2_pos p)).
    destruct (Z.ltb_spec (Zpos (digits2_pos p)) 24) as [Hlt | Hge].
    - rewrite binary_round_aux_nearest, iter_xO_pow2, Z2Pos.id by lia.
      replace (Z.max 0 (24 - Zpos (digits2_pos p))) with (24 - Zpos (digits2_pos p)) by lia.
      f_equal. lia.
    - rewrite binary_round_aux_nearest.
      replace (Z.max 0 (24 - Zpos (digits2_pos p))) with 0 by lia.
      rewrite Z.pow_0_r, Z.mul_1_r. reflexivity. }
  destruct n as [ | p | p ]; [reflexivity | apply H | apply H].
Qed.

Lemma mul_nearest (x y : Float32.float) :
  Float32.finite x = true -> Float32.finite y = true ->
  Float32.mul x y = multiply_rounded x y.
Proof.
  destruct x as [sx | sx | | sx mx ex]; destruct y as [sy | sy | | sy my ey];
    intros Hx Hy; try discriminate; try reflexivity.
  unfold Float32.mul, SFmul, multiply_rounded.
  rewrite binary_round_aux_nearest, Pos2Z.inj_mul. reflexivity.
Qed.

(** The conversion to [long long] drops the fractional part, toward zero, of
    a finite number whose integer part fits. *)
Lemma to_int64_truncate (x : Float32.float) :
  Float32.finite x = true -> Int64.in_range (truncate x) ->
  Float32.to_int64 x = truncate x.
Proof.
  destruct x as [s | s | | s m e]; intros Hf Hr; try discriminate; [reflexivity | ].
  assert (E : cond_Zopp s (Z.shiftl (Zpos m) e) = truncate (S754_finite s m e)).
  { unfold truncate. destruct (Z.leb_spec 0 e) as [He | He].
    - rewrite Z.shiftl_mul_pow2 by exact He. destruct s; cbn [cond_Zopp]; ring.
    - replace e with (- (- e)) at 1 by lia.
      rewrite Z.shiftl_opp_r, Z.shiftr_div_pow2 by lia.
      assert (Hp : 0 < 2 ^ (- e)) by (apply Z.pow_pos_nonneg; lia).
      destruct s; cbn [cond_Zopp].
      + change (- Zpos m) with (- (Zpos m)).
        rewrite Z.quot_opp_l, Z.quot_div_nonneg by lia. reflexivity.
      + rewrite Z.quot_div_nonneg by lia. reflexivity. }
  unfold Float32.to_int64. cbv zeta. rewrite E.
  unfold Int64.in_range in Hr.
  replace ((Int64.min_signed <=? truncate (S754_finite s m e))
           && (truncate (S754_finite s m e) <=? Int64.max_signed)) with true;
    [reflexivity | ].
  symmetry. apply andb_true_intro. split; apply Z.leb_le; lia.
Qed.

Lemma TimeStampExactDiff_in_range (a b : SystemTimeStamp) :
  Int64.in_range (TimeStampExactDiff a b).
Proof. rewrite TimeStampExactDiff_nanoseconds. apply wrap_in_range. Qed.

(** The delta of the code, in the words of the specification: the difference
    rounded to the nearest single-precision number, the product with the
    fraction rounded likewise, the fractional part dropped. *)
Lemma scale_rounded_product (n : Z) (i : Float32.float) :
  Int64.in_range n -> Float32.finite i = true ->
  Float32.finite (multiply_rounded (round_to_float n) i) = true ->
  Int64.in_range (truncate (multiply_rounded (round_to_float n) i)) ->
  scale n i = truncate (multiply_rounded (round_to_float n) i).
Proof.
  intros Hn Hi Hp Hr. unfold scale.
  rewrite mul_nearest by (trivial; apply of_int64_finite; exact Hn).
  rewrite of_int64_nearest. apply to_int64_truncate; assumption.
Qed.

(** C5, amended.  Let [x] be the difference from [a] to [b] rounded to the
    nearest single-precision number (ties to even), and [p] the product of
    [x] and the fraction [i] rounded likewise.  For a normalized [a], every
    [b] and every finite fraction, in or out of [0,1], if [p] is finite, its
    integer part fits in a [long long] and the seconds of the result stay in
    64-bit range, then the result denotes the instant of [a] plus [p]
    truncated toward zero. *)
Theorem InterpolateTimeStamp_rounded_product
  (a b : SystemTimeStamp) (i : Float32.float) :
  let p := multiply_rounded (round_to_float (TimeStampExactDiff a b)) i in
  normalized a ->
  Float32.finite i = true ->
  Float32.finite p = true ->
  Int64.in_range (truncate p) ->
  Int64.min_signed
  <= tv_sec (clockTime a) + Z.quot (truncate p) 1000000000
  < Int64.max_signed ->
  nanoseconds (InterpolateTimeStamp a b i) = nanoseconds a + truncate p.
Proof.
  intros p Ha Hi Hp Hr Hs.
  pose proof (scale_rounded_product (TimeStampExactDiff a b) i
                (TimeStampExactDiff_in_range a b) Hi Hp Hr) as E.
  fold p in E. rewrite <- E in Hs |- *.
  apply InterpolateTimeStamp_adds_scale; assumption.
Qed.

Lemma InterpolateTimeStamp_rounded_product_witness :
  nanoseconds (InterpolateTimeStamp (stamp 2 900000000) (stamp 5 0) Float32.three_halves)
  = nanoseconds (stamp 2 900000000)
    + truncate (multiply_rounded
                  (round_to_float (TimeStampExactDiff (stamp 2 900000000) (stamp 5 0)))
                  Float32.three_halves).
Proof.
  apply InterpolateTimeStamp_rounded_product.
  - vm_compute. split; [discriminate | reflexivity].
  - reflexivity.
  - vm_compute. reflexivity.
  - vm_compute. split; discriminate.
  - vm_compute. split; [discriminate | reflexivity].
Defined.
